(** * Sender classification and e-mail features of [preprocessing.py]

    A shallow embedding of [build_sender_features] (file
    [Machine Learning/preprocessing.py]): the Python string primitives it
    calls, the fragment of the [re] engine its patterns need, the
    per-row classifier, the per-row feature dictionary and the column-wise
    assembly of the result, followed by the properties proved about them. *)

From Stdlib Require Import List NArith ZArith Bool Ascii String Lia PeanoNat.
From Stdlib Require Import Reals Lra.
From Stdlib Require Import DecimalString.
Import ListNotations.

(** ** Python strings *)

(** A Python [str] is a sequence of Unicode code points. *)
Definition char := N.
Definition str := list char.

Definition chr (a : ascii) : char := N_of_ascii a.

(** An ASCII literal of the source as a [str]. *)
Definition lit (s : string) : str := map N_of_ascii (list_ascii_of_string s).

Definition char_eqb (a b : char) : bool := N.eqb a b.

Fixpoint str_eqb (a b : str) : bool :=
  match a, b with
  | [], [] => true
  | x :: a', y :: b' => char_eqb x y && str_eqb a' b'
  | _, _ => false
  end.

Definition in_range (lo hi c : char) : bool := (N.leb lo c && N.leb c hi)%bool.

(** [Py_UNICODE_ISSPACE]: what [str.strip()] removes and what [\s] matches in
    a [str] pattern. *)
Definition isspace (c : char) : bool :=
  (in_range 9 13 c || in_range 28 32 c || char_eqb c 133 || char_eqb c 160
   || char_eqb c 5760 || in_range 8192 8202 c || char_eqb c 8232
   || char_eqb c 8233 || char_eqb c 8239 || char_eqb c 8287
   || char_eqb c 12288)%bool%N.

Fixpoint lstrip_by (p : char -> bool) (s : str) : str :=
  match s with
  | c :: t => if p c then lstrip_by p t else s
  | [] => []
  end.

Definition rstrip_by (p : char -> bool) (s : str) : str :=
  rev (lstrip_by p (rev s)).

Definition strip_by (p : char -> bool) (s : str) : str :=
  rstrip_by p (lstrip_by p s).

(** [s.strip()] *)
Definition strip (s : str) : str := strip_by isspace s.

(** [s.strip(chars)] *)
Definition strip_chars (chars : str) (s : str) : str :=
  strip_by (fun c => existsb (char_eqb c) chars) s.

(** [c in s] for a one-character [c]. *)
Definition contains (c : char) (s : str) : bool := existsb (char_eqb c) s.

(** [s.count(c)] for a one-character [c]. *)
Definition count (c : char) (s : str) : nat :=
  List.length (filter (char_eqb c) s).

(** [s.split(c, 1)] for a one-character [c], when [c in s]: the text before
    the first [c] and the text after it. *)
Fixpoint split1 (c : char) (s : str) : str * str :=
  match s with
  | [] => ([], [])
  | x :: t => if char_eqb x c then ([], t)
              else let (a, b) := split1 c t in (x :: a, b)
  end.

Definition startswith (c : char) (s : str) : bool :=
  match s with x :: _ => char_eqb x c | [] => false end.

Definition endswith (c : char) (s : str) : bool := startswith c (rev s).

(** ** The [re] fragment

    Every pattern of the source is a concatenation of anchors, single
    character sets, repetitions of a single character set, alternatives and
    groups.  The matcher explores the alternatives in the order of the
    backtracking engine and lists every way a pattern can match from a
    state; the engine's answer is the first one. *)

Module Re.

(** Members of a bracketed set. *)
Inductive item :=
| Ch (c : char)
| Range (lo hi : char)
| Space.                      (* \s *)

Definition item_has (i : item) (c : char) : bool :=
  match i with
  | Ch x => char_eqb c x
  | Range lo hi => in_range lo hi c
  | Space => isspace c
  end.

(** [Py_UNICODE_TOLOWER], exact on the code points whose image is an ASCII
    letter (the only images a pattern letter is compared with). *)
Definition sre_lower (x : char) : char :=
  (if in_range 65 90 x then x + 32
   else if char_eqb x 304 then 105
   else if char_eqb x 8490 then 107
   else x)%N.

(** The engine's case-fix table at the ASCII letters: i ~ U+0131,
    s ~ U+017F, k ~ U+212A. *)
Definition sre_fixes (c : char) : list char :=
  (if char_eqb c 105 then [305]
   else if char_eqb c 115 then [383]
   else if char_eqb c 107 then [8490]
   else [])%N.

(** One-character matchers. *)
Inductive cls :=
| Dot                         (* .  (no DOTALL) *)
| Lit (c : char)              (* a literal *)
| LitI (c : char)             (* a literal under re.I: a lower-case ASCII
                                 letter or an ASCII character without case *)
| OneOf (l : list item)       (* [...] *)
| NoneOf (l : list item)      (* [^...] *)
| Where (p : char -> bool).   (* a category escape with a supplied table *)

Definition cls_has (k : cls) (c : char) : bool :=
  match k with
  | Dot => negb (char_eqb c 10%N)
  | Lit x => char_eqb c x
  | LitI x => let l := sre_lower c in
              (char_eqb l x || existsb (char_eqb l) (sre_fixes x))%bool
  | OneOf l => existsb (fun i => item_has i c) l
  | NoneOf l => negb (existsb (fun i => item_has i c) l)
  | Where p => p c
  end.

Inductive regex :=
| Eps
| One (k : cls)
| Cat (r1 r2 : regex)
| Alt (r1 r2 : regex)
| Rep (greedy : bool) (lo : nat) (k : cls)   (* k{lo,} or k{lo,}? *)
| Grp (name : string) (r : regex)
| Bos                         (* ^ (no MULTILINE) *)
| Eos.                        (* $ (no MULTILINE) *)

(** A matcher state: the index reached, the text from there on, and the
    groups closed so far. *)
Record mstate := MState {
  pos : nat;
  rest : str;
  groups : list (string * str)
}.

(** The states after 0, 1, 2, ... characters of a run of [k]. *)
Fixpoint runs (k : cls) (i : nat) (s : str) (g : list (string * str))
  : list mstate :=
  MState i s g ::
  match s with
  | c :: t => if cls_has k c then runs k (S i) t g else []
  | [] => []
  end.

Fixpoint exec (r : regex) (st : mstate) : list mstate :=
  match r with
  | Eps => [st]
  | One k =>
      match rest st with
      | c :: t => if cls_has k c then [MState (S (pos st)) t (groups st)]
                  else []
      | [] => []
      end
  | Cat r1 r2 => flat_map (exec r2) (exec r1 st)
  | Alt r1 r2 => exec r1 st ++ exec r2 st
  | Rep greedy lo k =>
      let l := skipn lo (runs k (pos st) (rest st) (groups st)) in
      if greedy then rev l else l
  | Grp name r1 =>
      map (fun st' =>
             MState (pos st') (rest st')
               ((name, firstn (pos st' - pos st) (rest st)) :: groups st'))
          (exec r1 st)
  | Bos => if Nat.eqb (pos st) 0 then [st] else []
  | Eos =>
      match rest st with
      | [] => [st]
      | [c] => if char_eqb c 10%N then [st] else []
      | _ => []
      end
  end.

(** A match object: where it starts, how long it is, and its groups. *)
Record match_obj := Match {
  m_start : nat;
  m_len : nat;
  m_groups : list (string * str)
}.

Definition match_at (r : regex) (i : nat) (s : str) : option match_obj :=
  match exec r (MState i s []) with
  | st :: _ => Some (Match i (pos st - i) (groups st))
  | [] => None
  end.

(** [pattern.match(s)] *)
Definition rmatch (r : regex) (s : str) : option match_obj := match_at r 0 s.

Fixpoint search_from (r : regex) (i : nat) (s : str) : option match_obj :=
  match match_at r i s with
  | Some m => Some m
  | None => match s with
            | [] => None
            | _ :: t => search_from r (S i) t
            end
  end.

(** [pattern.search(s)] *)
Definition search (r : regex) (s : str) : option match_obj := search_from r 0 s.

(** [m.group(name)] of a group that took part in the match. *)
Fixpoint group (name : string) (g : list (string * str)) : str :=
  match g with
  | [] => []
  | (n, v) :: g' => if String.eqb n name then v else group name g'
  end.

(** [re.sub(pattern, repl, s)] with a literal replacement: scan left to
    right, replace each match, copy what lies between matches.  [skip]
    counts the characters of the current match still to be passed over. *)
Fixpoint sub_from (r : regex) (repl : str) (i skip : nat) (s : str) : str :=
  match skip with
  | S k => match s with
           | _ :: t => sub_from r repl (S i) k t
           | [] => []
           end
  | O =>
      match match_at r i s with
      | Some m =>
          match m_len m, s with
          | O, [] => repl
          | O, c :: t => repl ++ c :: sub_from r repl (S i) 0 t
          | S k, _ :: t => repl ++ sub_from r repl (S i) k t
          | S _, [] => repl
          end
      | None =>
          match s with
          | [] => []
          | c :: t => c :: sub_from r repl (S i) 0 t
          end
      end
  end.

Definition sub (r : regex) (repl s : str) : str := sub_from r repl 0 0 s.

(** Concatenation of a list of pieces, as a pattern is written. *)
Fixpoint seq (l : list regex) : regex :=
  match l with
  | [] => Eps
  | [r] => r
  | r :: l' => Cat r (seq l')
  end.

(** A literal word under re.I. *)
Definition wordI (s : string) : regex := seq (map (fun c => One (LitI c)) (lit s)).

Definition star (k : cls) : regex := Rep true 0 k.
Definition plus (k : cls) : regex := Rep true 1 k.
Definition lazy_star (k : cls) : regex := Rep false 0 k.
Definition opt (k : cls) : regex := Alt (One k) Eps.
Definition c (a : ascii) : regex := One (Lit (chr a)).

End Re.

(** ** The patterns of [build_sender_features] *)

Definition dquote : char := 34%N.

Section Patterns.
Import Re.

(* [^@\s] *)
Definition NOT_AT_SPACE : cls := NoneOf [Ch (chr "@"); Space].
(* [^>] *)
Definition NOT_GT : cls := NoneOf [Ch (chr ">")].
(* \s *)
Definition WS : cls := OneOf [Space].

(* ^[^@\s]+@[^@\s]+\.[^@\s]+$ *)
Definition RE_EMAIL_ONLY : regex :=
  seq [Bos; plus NOT_AT_SPACE; c "@"; plus NOT_AT_SPACE; c ".";
       plus NOT_AT_SPACE; Eos].

(* ^[^@\s]+@[^@\s]+\.[^@\s]+\s*\([^)]+\)\s*$ *)
Definition RE_PAREN_NAME : regex :=
  seq [Bos; plus NOT_AT_SPACE; c "@"; plus NOT_AT_SPACE; c ".";
       plus NOT_AT_SPACE; star WS; c "("; plus (NoneOf [Ch (chr ")")]);
       c ")"; star WS; Eos].

(* ^[^@\s]+@[^@\s]+\.[^@\s]+\s*\(\s*\)\s*$ *)
Definition RE_PAREN_EMPTY : regex :=
  seq [Bos; plus NOT_AT_SPACE; c "@"; plus NOT_AT_SPACE; c ".";
       plus NOT_AT_SPACE; star WS; c "("; star WS; c ")"; star WS; Eos].

(* ^(?P<disp>.*?)(?P<addr><\s*[^>]+@[^>]+\s*>)\s*$ *)
Definition RE_DISPLAY_ANGLE : regex :=
  seq [Bos; Grp "disp" (lazy_star Dot);
       Grp "addr" (seq [c "<"; star WS; plus NOT_GT; c "@"; plus NOT_GT;
                        star WS; c ">"]);
       star WS; Eos].

(* ^Q\s*[^Q]+\s*Q\s*<[^>]+>$   with Q the double quote *)
Definition RE_QUOTED_NAME_ANG : regex :=
  seq [Bos; One (Lit dquote); star WS; plus (NoneOf [Ch dquote]); star WS;
       One (Lit dquote); star WS; c "<"; plus NOT_GT; c ">"; Eos].

(* [^Q,<>] *)
Definition NOT_QCLG : cls :=
  NoneOf [Ch dquote; Ch (chr ","); Ch (chr "<"); Ch (chr ">")].

(* ^Q?[^Q,<>]+,[^Q,<>]+Q\s*<[^>]+>$ *)
Definition RE_LAST_COMMA_FIRST : regex :=
  seq [Bos; opt (Lit dquote); plus NOT_QCLG; c ","; plus NOT_QCLG;
       One (Lit dquote); star WS; c "<"; plus NOT_GT; c ">"; Eos].

(* NAME_CHARS, as a set: A-Z, a-z, U+00C0-U+00D6, U+00D8-U+00F6,
   U+00F8-U+00FF, apostrophe, backtick, U+2019, hyphen, period, space *)
Definition NAME_CHARS : cls :=
  OneOf [Range (chr "A") (chr "Z"); Range (chr "a") (chr "z");
         Range 192%N 214%N; Range 216%N 246%N; Range 248%N 255%N;
         Ch (chr "'"); Ch (chr "`"); Ch 8217%N; Ch (chr "-"); Ch (chr ".");
         Ch (chr " ")].

(* ^[NAME_CHARS]+\s+[NAME_CHARS]+\s*<[^>]+>$ *)
Definition RE_NAME_ANG : regex :=
  seq [Bos; plus NAME_CHARS; plus WS; plus NAME_CHARS; star WS; c "<";
       plus NOT_GT; c ">"; Eos].

(* ^[A-Za-z0-9._-]+$ *)
Definition RE_USERNAME_STYLE : regex :=
  seq [Bos;
       plus (OneOf [Range (chr "A") (chr "Z"); Range (chr "a") (chr "z");
                    Range (chr "0") (chr "9"); Ch (chr "."); Ch (chr "_");
                    Ch (chr "-")]);
       Eos].

(* \[[^\]]*\] *)
Definition RE_BRACKETS : regex :=
  seq [c "["; star (NoneOf [Ch (chr "]")]); c "]"].

(* (no\.hostname\.specified|localhost|example\.com), re.I *)
Definition RE_FAKE_DOMAIN : regex :=
  Grp "1"
    (Alt (wordI "no.hostname.specified")
       (Alt (wordI "localhost") (wordI "example.com"))).

(* <\s*([^>]+)\s*> *)
Definition RE_ANGLE_INNER : regex :=
  seq [c "<"; star WS; Grp "1" (plus NOT_GT); star WS; c ">"].

(* \s+ *)
Definition RE_SPACES : regex := plus WS.

End Patterns.

(** A truth test on a match result. *)
Definition matched (m : option Re.match_obj) : bool :=
  match m with Some _ => true | None => false end.

Definition nonempty (s : str) : bool :=
  match s with [] => false | _ :: _ => true end.

(** ** [_clean] and [_split_display_angle] *)

(** [None] is a null sender ([pd.isna]). *)
Definition _clean (s : option str) : str :=
  match s with
  | None => []
  | Some s => strip (Re.sub RE_SPACES (lit " ") s)
  end.

Definition _split_display_angle (s : str) : str * str :=
  if negb (nonempty s) then ([], [])
  else
    match Re.search RE_DISPLAY_ANGLE s with
    | None => ([], [])
    | Some m =>
        let disp :=
          strip_chars (dquote :: lit " ")
            (strip (Re.group "disp" (Re.m_groups m))) in
        let addr := Re.group "addr" (Re.m_groups m) in
        let email :=
          match Re.search RE_ANGLE_INNER addr with
          | Some m2 => strip (Re.group "1" (Re.m_groups m2))
          | None => strip addr
          end in
        (disp, email)
    end.

(** ** The classifier: first loop of [build_sender_features] *)

(** An [OrderedDict] of flags: keys in insertion order. *)
Definition flags := list (string * Z).

Definition FLAG_NAMES : list string :=
  ["is_mail_only"; "is_mail_paren_name"; "is_name_angle"; "is_quoted_name";
   "is_last_comma_first"; "is_username_angle"; "is_display_angle";
   "is_multi_mails"; "is_mail_empty_parens"; "is_double_at";
   "is_mail_with_brackets"; "is_fake_domain"; "is_other";
   "is_display_empty_angle"; "is_quoted_text_no_email"]%string.

(** [OrderedDict.fromkeys(keys, v)] *)
Definition fromkeys (keys : list string) (v : Z) : flags :=
  map (fun k => (k, v)) keys.

(** [d[k] = v] *)
Fixpoint setitem (k : string) (v : Z) (d : flags) : flags :=
  match d with
  | [] => [(k, v)]
  | (k', v') :: d' =>
      if String.eqb k' k then (k', v) :: d' else (k', v') :: setitem k v d'
  end.

(** [d[k]] *)
Fixpoint getitem (k : string) (d : flags) : option Z :=
  match d with
  | [] => None
  | (k', v') :: d' => if String.eqb k' k then Some v' else getitem k d'
  end.

(** One iteration of the loop: the category appended to [cats] and the
    dictionary appended to [flag_dicts]. *)
Definition classify (sender : option str) : string * flags :=
  let flags := fromkeys FLAG_NAMES 0%Z in
  let sender_clean := _clean sender in
  if negb (nonempty sender_clean) then
    ("other"%string, setitem "is_other" 1%Z flags)
  else if (contains (chr ",") sender_clean
           && Nat.leb 2 (count (chr "@") sender_clean))%bool then
    ("multi_mails"%string, setitem "is_multi_mails" 1%Z flags)
  else if matched (Re.rmatch RE_PAREN_EMPTY sender_clean) then
    ("mail_empty_parentheses"%string, setitem "is_mail_empty_parens" 1%Z flags)
  else if matched (Re.rmatch RE_PAREN_NAME sender_clean) then
    ("mail_parentheses_lastname"%string,
     setitem "is_mail_paren_name" 1%Z flags)
  else if matched (Re.search RE_BRACKETS sender_clean) then
    ("mail_with_brackets"%string, setitem "is_mail_with_brackets" 1%Z flags)
  else if matched (Re.rmatch RE_EMAIL_ONLY sender_clean) then
    ("mail_only"%string, setitem "is_mail_only" 1%Z flags)
  else if Nat.ltb 1 (count (chr "@") sender_clean) then
    ("mail_double_at"%string, setitem "is_double_at" 1%Z flags)
  else if matched (Re.search RE_FAKE_DOMAIN sender_clean) then
    ("mail_fake_domain"%string, setitem "is_fake_domain" 1%Z flags)
  else
    let (disp, angle) := _split_display_angle sender_clean in
    if nonempty angle then
      let disp_core := strip_chars (dquote :: lit " ") disp in
      if matched (Re.rmatch RE_QUOTED_NAME_ANG sender_clean) then
        ("quoted_lastname_firstname_angle"%string,
         setitem "is_quoted_name" 1%Z flags)
      else if matched (Re.rmatch RE_LAST_COMMA_FIRST sender_clean) then
        ("lastname_comma_firstname_angle"%string,
         setitem "is_last_comma_first" 1%Z flags)
      else if matched (Re.rmatch RE_NAME_ANG sender_clean) then
        ("lastname_firstname_angle"%string, setitem "is_name_angle" 1%Z flags)
      else if (matched (Re.rmatch RE_USERNAME_STYLE disp_core)
               && negb (contains (chr " ") disp_core))%bool then
        ("username_angle"%string, setitem "is_username_angle" 1%Z flags)
      else
        ("display_angle"%string, setitem "is_display_angle" 1%Z flags)
    else if (str_eqb (strip sender_clean) (dquote :: dquote :: lit " <>")
             || str_eqb (strip sender_clean) (dquote :: dquote :: lit "<>"))%bool
    then
      ("display_empty_angle"%string, setitem "is_display_empty_angle" 1%Z flags)
    else if (startswith dquote (strip sender_clean)
             && endswith dquote (strip sender_clean)
             && negb (contains (chr "@") sender_clean))%bool then
      ("quoted_text_only"%string, setitem "is_quoted_text_no_email" 1%Z flags)
    else
      ("other"%string, setitem "is_other" 1%Z flags).

Definition category (sender : option str) : string := fst (classify sender).

(** ** The features: second loop of [build_sender_features] *)

(** Python floats are IEEE-754 binary64 and [math.log2] is the C library's;
    neither is interpreted here.  A float is kept as the expression that
    produces it. *)
Inductive pyfloat :=
| FloatZero                                 (* the literal 0.0 *)
| NegSumPLog2 (cnts : list nat) (n : nat).
    (* -sum((cnt/n)*math.log2(cnt/n) for cnt in cnts) *)

(** [Counter(s).values()]: the number of occurrences of each distinct
    character, in order of first appearance. *)
Fixpoint counter_add (x : char) (d : list (char * nat)) : list (char * nat) :=
  match d with
  | [] => [(x, 1)]
  | (y, n) :: d' =>
      if char_eqb y x then (y, S n) :: d' else (y, n) :: counter_add x d'
  end.

Definition Counter (s : str) : list (char * nat) :=
  fold_left (fun d x => counter_add x d) s [].

Definition _shannon_entropy (s : str) : pyfloat :=
  if negb (nonempty s) then FloatZero
  else NegSumPLog2 (map snd (Counter s)) (List.length s).

(** The tables of the Unicode character database the features consult:
    the decimal digits ([\d]), the digits of [str.isdigit], and the
    lower-case expansion [str.lower] gives the character at an index of a
    string. *)
Record unicode_db := UnicodeDb {
  is_decimal : char -> bool;
  is_digit : char -> bool;
  lower_at : str -> nat -> list char
}.

(** The database restricted to ASCII text. *)
Definition ascii_db : unicode_db :=
  UnicodeDb (in_range 48%N 57%N) (in_range 48%N 57%N)
    (fun s i => match nth_error s i with
                | Some x => [if in_range 65%N 90%N x then (x + 32)%N else x]
                | None => []
                end).

(** [s.lower()] *)
Definition lower (db : unicode_db) (s : str) : str :=
  flat_map (lower_at db s) (List.seq 0 (List.length s)).

Definition FREE_DOMAINS : list str :=
  map lit ["gmail.com"; "yahoo.com"; "hotmail.com"; "outlook.com"; "aol.com";
           "icloud.com"; "protonmail.com"; "wanadoo.fr"; "orange.fr";
           "laposte.net"; "free.fr"; "sfr.fr"; "yandex.ru"; "mail.ru";
           "zoho.com"]%string.

(** A cell of a table. *)
Inductive cell :=
| Null                        (* None / NaN *)
| Text (s : str)
| Int (z : Z)
| Float (f : pyfloat).

(** [int(b)] *)
Definition int_of_bool (b : bool) : cell := Int (if b then 1 else 0)%Z.

(** [len(s)] *)
Definition len (s : str) : cell := Int (Z.of_nat (List.length s)).

(** The address the second loop settles on: the angle address, else the
    whole cleaned string when it is a bare address, else nothing. *)
Definition located_email (s_clean : str) : str :=
  let (_, email) := _split_display_angle s_clean in
  if (negb (nonempty email) && matched (Re.rmatch RE_EMAIL_ONLY s_clean))%bool
  then s_clean else email.

(** [local, domain] after the [if "@" in email] of the loop. *)
Definition local_domain (email : str) : str * str :=
  if contains (chr "@") email then split1 (chr "@") email else ([], []).

(** One iteration of the loop: the dictionary appended to [rows]. *)
Definition features (db : unicode_db) (s : option str) : list (string * cell) :=
  let s_clean := _clean s in
  let email := located_email s_clean in
  let (local, domain) := local_domain email in
  [ ("email_local_len", len local);
    ("email_domain_len", len domain);
    ("email_local_entropy", Float (_shannon_entropy local));
    ("email_local_has_digits",
      int_of_bool (matched (Re.search (Re.One (Re.Where (is_decimal db))) local)));
    ("email_local_has_underscore", int_of_bool (contains (chr "_") local));
    ("email_local_has_dot", int_of_bool (contains (chr ".") local));
    ("email_local_has_plus", int_of_bool (contains (chr "+") local));
    ("email_domain_is_free",
      int_of_bool (existsb (str_eqb (lower db domain)) FREE_DOMAINS));
    ("email_domain_has_digit", int_of_bool (existsb (is_digit db) domain));
    ("email_domain_has_dash", int_of_bool (contains (chr "-") domain)) ]%string.

(** ** Tables and the batch entry point *)

(** A table over the default index: its columns in order, each with its
    name and its cells. *)
Definition frame := list (string * list cell).

(** [df[name]] *)
Fixpoint column (name : string) (df : frame) : option (list cell) :=
  match df with
  | [] => None
  | (n, col) :: df' => if String.eqb n name then Some col else column name df'
  end.

(** [df[name] = col] *)
Fixpoint set_column (name : string) (col : list cell) (df : frame) : frame :=
  match df with
  | [] => [(name, col)]
  | (n, col') :: df' =>
      if String.eqb n name then (n, col) :: df'
      else (n, col') :: set_column name col df'
  end.

(** The keys of a list of dictionaries, each once, by first appearance. *)
Definition add_key (acc : list string) (k : string) : list string :=
  if existsb (String.eqb k) acc then acc else acc ++ [k].

Definition keys_of (recs : list (list (string * cell))) : list string :=
  fold_left (fun acc r => fold_left add_key (map fst r) acc) recs [].

Fixpoint record_get (k : string) (r : list (string * cell)) : cell :=
  match r with
  | [] => Null
  | (k', v) :: r' => if String.eqb k' k then v else record_get k r'
  end.

(** [pd.DataFrame(recs)] for a list of dictionaries. *)
Definition DataFrame (recs : list (list (string * cell))) : frame :=
  map (fun k => (k, map (record_get k) recs)) (keys_of recs).

(** [pd.concat([a, b], axis=1)] of two tables over the same index: the
    columns of [b] after those of [a], the rows as they are.  Tables whose
    indexes differ are the matter of [concat] below. *)
Definition concat_columns (a b : frame) : frame := a ++ b.

(** [str(z)] for an integer. *)
Definition str_of_int (z : Z) : str :=
  lit (NilZero.string_of_int (Z.to_int z)).

(** The value a row of the sender column hands to [_clean]: nothing for a
    null, else its text, [str(s)]. A cell is the Python value the iteration
    yields: the text of an integer is its decimal writing and the text of
    the float 0.0 is 0.0; the text of a computed float is the shortest
    decimal that reads back as its binary64 value, which is not determined
    here ([None]). *)
Definition sender_of (x : cell) : option (option str) :=
  match x with
  | Null => Some None
  | Text s => Some (Some s)
  | Int z => Some (Some (str_of_int z))
  | Float FloatZero => Some (Some (lit "0.0"))
  | Float (NegSumPLog2 _ _) => None
  end.

Fixpoint senders_of (col : list cell) : option (list (option str)) :=
  match col with
  | [] => Some []
  | x :: col' =>
      match sender_of x, senders_of col' with
      | Some s, Some l => Some (s :: l)
      | _, _ => None
      end
  end.

Definition flags_record (d : flags) : list (string * cell) :=
  map (fun kv => (fst kv, Int (snd kv))) d.

(** The table of the flag dictionaries. *)
Definition fmt_df (senders : list (option str)) : frame :=
  DataFrame (map (fun s => flags_record (snd (classify s))) senders).

(** The table of the feature dictionaries. *)
Definition enrich_df (db : unicode_db) (senders : list (option str)) : frame :=
  DataFrame (map (features db) senders).

(** [build_sender_features(df)] on a table over the default index; [None]
    when [df] has no sender column (a [KeyError]) or when the text of a
    sender cell is not determined. *)
Definition build_sender_features (db : unicode_db) (df : frame) : option frame :=
  match column "sender" df with
  | None => None
  | Some col =>
      match senders_of col with
      | None => None
      | Some senders =>
          let cats := map (fun s => Text (lit (fst (classify s)))) senders in
          let df1 := set_column "sender_category" cats df in
          let df2 := concat_columns df1 (fmt_df senders) in
          Some (concat_columns df2 (enrich_df db senders))
      end
  end.

(** ** Tables with their row index *)

(** A row label: a number or a name. *)
Inductive label :=
| At (i : Z)
| Named (s : str).

Definition label_eqb (a b : label) : bool :=
  match a, b with
  | At i, At j => Z.eqb i j
  | Named s, Named u => str_eqb s u
  | _, _ => false
  end.

(** [a.equals(b)] for two indexes. *)
Fixpoint index_eqb (a b : list label) : bool :=
  match a, b with
  | [], [] => true
  | x :: a', y :: b' => (label_eqb x y && index_eqb a' b')%bool
  | _, _ => false
  end.

(** [pd.RangeIndex(n)], the default index: the labels 0 to n-1.  It is the
    index [pd.DataFrame] gives to the table of a list of [n] dictionaries. *)
Definition RangeIndex (n : nat) : list label :=
  map (fun i => At (Z.of_nat i)) (List.seq 0 n).

(** A table: the labels of its rows and its columns. *)
Record table := Table { index : list label; columns : frame }.

(** What [pd.concat(axis=1)] gives for two tables whose indexes differ: the
    rows joined on their labels, with NaN cells where a table has no row
    for a label (which turns its integer columns into float columns), or an
    error.  It is taken from pandas. *)
Record pandas := Pandas { join_rows : table -> table -> option table }.

(** [pd.concat([a, b], axis=1)]: when both tables have the same index the
    columns of [b] follow those of [a] and the rows stay as they are;
    otherwise the rows are joined on their labels. *)
Definition concat (pd : pandas) (a b : table) : option table :=
  if index_eqb (index a) (index b)
  then Some (Table (index a) (columns a ++ columns b))
  else join_rows pd a b.

(** [build_sender_features(df)] on a table with any index.  The flag table
    and the feature table come with the default index, and the second loop
    reads the sender column of the table joined with the flags.  [None] for
    a [KeyError], for the [ValueError] of a category column that has not one
    value per row, for an error of the join, or when the text of a sender
    cell is not determined. *)
Definition build_sender_features_indexed (pd : pandas) (db : unicode_db)
  (df : table) : option table :=
  match column "sender" (columns df) with
  | None => None
  | Some col =>
      match senders_of col with
      | None => None
      | Some senders =>
          let cats := map (fun s => Text (lit (fst (classify s)))) senders in
          if negb (Nat.eqb (List.length cats) (List.length (index df)))
          then None
          else
            let df1 :=
              Table (index df) (set_column "sender_category" cats (columns df)) in
            let fmt := Table (RangeIndex (List.length senders)) (fmt_df senders) in
            match concat pd df1 fmt with
            | None => None
            | Some df2 =>
                match column "sender" (columns df2) with
                | None => None
                | Some col2 =>
                    match senders_of col2 with
                    | None => None
                    | Some senders2 =>
                        concat pd df2
                          (Table (RangeIndex (List.length senders2))
                             (enrich_df db senders2))
                    end
                end
            end
      end
  end.

(** A library that is never asked for a join. *)
Definition no_join : pandas := Pandas (fun _ _ => None).

(** ** Vocabulary of the properties *)

(** Each category with the flag its branch sets. *)
Definition CATEGORY_FLAG : list (string * string) :=
  [("mail_only", "is_mail_only");
   ("mail_parentheses_lastname", "is_mail_paren_name");
   ("lastname_firstname_angle", "is_name_angle");
   ("quoted_lastname_firstname_angle", "is_quoted_name");
   ("lastname_comma_firstname_angle", "is_last_comma_first");
   ("username_angle", "is_username_angle");
   ("display_angle", "is_display_angle");
   ("multi_mails", "is_multi_mails");
   ("mail_empty_parentheses", "is_mail_empty_parens");
   ("mail_double_at", "is_double_at");
   ("mail_with_brackets", "is_mail_with_brackets");
   ("mail_fake_domain", "is_fake_domain");
   ("other", "is_other");
   ("display_empty_angle", "is_display_empty_angle");
   ("quoted_text_only", "is_quoted_text_no_email")]%string.

Definition CATEGORIES : list string := map fst CATEGORY_FLAG.

(** The number of flags of a dictionary that are 1. *)
Definition ones (d : flags) : nat :=
  List.length (filter (fun kv => Z.eqb (snd kv) 1) d).

Definition FEATURE_NAMES : list string :=
  ["email_local_len"; "email_domain_len"; "email_local_entropy";
   "email_local_has_digits"; "email_local_has_underscore";
   "email_local_has_dot"; "email_local_has_plus"; "email_domain_is_free";
   "email_domain_has_digit"; "email_domain_has_dash"]%string.

(** The feature dictionary with every length, the entropy and every
    indicator at zero. *)
Definition ZERO_ROW : list (string * cell) :=
  [("email_local_len", Int 0); ("email_domain_len", Int 0);
   ("email_local_entropy", Float FloatZero);
   ("email_local_has_digits", Int 0); ("email_local_has_underscore", Int 0);
   ("email_local_has_dot", Int 0); ("email_local_has_plus", Int 0);
   ("email_domain_is_free", Int 0); ("email_domain_has_digit", Int 0);
   ("email_domain_has_dash", Int 0)]%string%Z.

(** The cleaned sender gets past rules 1 to 7 of the decision list. *)
Definition past_rule_7 (t : str) : bool :=
  (nonempty t
   && negb (contains (chr ",") t && Nat.leb 2 (count (chr "@") t))
   && negb (matched (Re.rmatch RE_PAREN_EMPTY t))
   && negb (matched (Re.rmatch RE_PAREN_NAME t))
   && negb (matched (Re.search RE_BRACKETS t))
   && negb (matched (Re.rmatch RE_EMAIL_ONLY t))
   && negb (Nat.ltb 1 (count (chr "@") t)))%bool.

(** The domain the feature loop derives from a cleaned sender. *)
Definition domain_of (t : str) : str := snd (local_domain (located_email t)).

(** Whitespace normalisation, stated directly: drop leading white space,
    turn every inner run into one space, drop trailing white space. *)
Inductive phase := Leading | Word | Gap.

Fixpoint norm (ph : phase) (s : str) : str :=
  match s with
  | [] => []
  | x :: t =>
      if isspace x then norm (match ph with Leading => Leading | _ => Gap end) t
      else match ph with
           | Gap => 32%N :: x :: norm Word t
           | _ => x :: norm Word t
           end
  end.

(** Runs of white space replaced by one space; [in_run] tells that the
    space of the current run is already out. *)
Fixpoint squeeze (in_run : bool) (s : str) : str :=
  match s with
  | [] => []
  | x :: t =>
      if isspace x then (if in_run then squeeze true t else 32%N :: squeeze true t)
      else x :: squeeze false t
  end.

(** The length of the longest prefix of [s] inside [k]. *)
Fixpoint runlen (k : Re.cls) (s : str) : nat :=
  match s with
  | x :: t => if Re.cls_has k x then S (runlen k t) else 0
  | [] => 0
  end.

(** What a pattern means: [den r i w post] says that [r] matches the text
    [w] found at index [i] and followed by [post]. *)
Fixpoint den (r : Re.regex) (i : nat) (w post : str) : Prop :=
  match r with
  | Re.Eps => w = []
  | Re.One k => exists x, w = [x] /\ Re.cls_has k x = true
  | Re.Cat r1 r2 =>
      exists w1 w2, w = w1 ++ w2 /\ den r1 i w1 (w2 ++ post)
                    /\ den r2 (i + List.length w1) w2 post
  | Re.Alt r1 r2 => den r1 i w post \/ den r2 i w post
  | Re.Rep _ lo k => lo <= List.length w /\ forallb (Re.cls_has k) w = true
  | Re.Grp _ r1 => den r1 i w post
  | Re.Bos => w = [] /\ i = 0
  | Re.Eos => w = [] /\ (post = [] \/ post = [10%N])
  end.

(** A text character [x] equals the pattern character [p] under re.I: it
    is [p], or the capital of the letter [p], or one of the characters the
    engine folds onto i, s and k (U+0130, U+0131, U+017F, U+212A). *)
Definition eq_ignorecase (x p : char) : Prop :=
  (x = p
   \/ (97 <= p <= 122 /\ x + 32 = p)
   \/ (p = 105 /\ (x = 304 \/ x = 305))
   \/ (p = 115 /\ x = 383)
   \/ (p = 107 /\ x = 8490))%N.

(** A text that is one of the placeholder names, compared under re.I. *)
Definition fake_name (w : str) : Prop :=
  Forall2 eq_ignorecase w (lit "no.hostname.specified")
  \/ Forall2 eq_ignorecase w (lit "localhost")
  \/ Forall2 eq_ignorecase w (lit "example.com").

(** The flag dictionary [fl] is one-hot on the flag of category [cat]. *)
Definition one_hot (cat : string) (fl : flags) : Prop :=
  In cat CATEGORIES
  /\ map fst fl = FLAG_NAMES
  /\ ones fl = 1
  /\ exists flag,
       In (cat, flag) CATEGORY_FLAG
       /\ forall k, In k FLAG_NAMES ->
            getitem k fl = Some (if String.eqb k flag then 1 else 0)%Z.

(** The last character of [t] that is not white space is [a]. *)
Definition ends_with (a : char) (t : str) : Prop :=
  exists u ws, t = u ++ a :: ws /\ forallb isspace ws = true.

(** The text [<l@x.y>]: an address alone between angle brackets. *)
Definition angle_only (l x y : str) : str :=
  chr "<" :: l ++ chr "@" :: x ++ chr "." :: y ++ [chr ">"].

(** ** Exact reading of the entropy expression *)

(** The real number a float expression denotes when no operation rounds. *)
Definition log2R (x : R) : R := (ln x / ln 2)%R.

Fixpoint sumR (l : list R) : R :=
  match l with
  | [] => 0%R
  | x :: l' => (x + sumR l')%R
  end.

(** The frequency [c/n]. *)
Definition freq (c n : nat) : R := (INR c / INR n)%R.

(** The term [(cnt/n)*log2(cnt/n)]. *)
Definition plog2p (cnt n : nat) : R :=
  (INR cnt / INR n * log2R (INR cnt / INR n))%R.

Definition exact (f : pyfloat) : R :=
  match f with
  | FloatZero => 0%R
  | NegSumPLog2 cnts n => (- sumR (map (fun cnt => plog2p cnt n) cnts))%R
  end.

(** The number of distinct characters of a string. *)
Definition distinct (s : str) : nat := List.length (Counter s).

(** [Counter(s)[c]] *)
Fixpoint counter_get (c : char) (d : list (char * nat)) : nat :=
  match d with
  | [] => 0
  | (y, n) :: d' => if char_eqb y c then n else counter_get c d'
  end.

(** ** [preprocess_mail_content] *)

(* \S *)
Definition NOT_SPACE : Re.cls := Re.NoneOf [Re.Space].

(** A literal word. *)
Definition word (s : string) : Re.regex :=
  Re.seq (map (fun a => Re.One (Re.Lit a)) (lit s)).

(* http\S+|www\S+|https\S+ *)
Definition RE_URL : Re.regex :=
  Re.Alt (Re.Cat (word "http") (Re.plus NOT_SPACE))
    (Re.Alt (Re.Cat (word "www") (Re.plus NOT_SPACE))
       (Re.Cat (word "https") (Re.plus NOT_SPACE))).

(* \S+@\S+ *)
Definition RE_MAIL : Re.regex :=
  Re.seq [Re.plus NOT_SPACE; Re.c "@"; Re.plus NOT_SPACE].

(** What the function takes from its libraries: the visible text of an
    HTML document (BeautifulSoup), the word characters of [\w], the stop
    words of every language (nltk) and the WordNet lemmatizer. *)
Record text_tools := TextTools {
  get_text : str -> str;
  is_word : char -> bool;
  stop_words : list str;
  lemmatize : str -> str
}.

(* [^\w\s] *)
Definition RE_PUNCT (tt : text_tools) : Re.regex :=
  Re.One (Re.Where (fun x => negb (is_word tt x || isspace x))).

(** [s.split()]: the maximal runs of characters that are not white space.
    [cur] is the run being read, last character first. *)
Fixpoint split_from (cur : str) (s : str) : list str :=
  match s with
  | [] => match cur with [] => [] | _ :: _ => [rev cur] end
  | x :: t =>
      if isspace x
      then match cur with
           | [] => split_from [] t
           | _ :: _ => rev cur :: split_from [] t
           end
      else split_from (x :: cur) t
  end.

Definition split (s : str) : list str := split_from [] s.

(** [sep.join(l)] *)
Fixpoint join (sep : str) (l : list str) : str :=
  match l with
  | [] => []
  | [w] => w
  | w :: l' => w ++ sep ++ join sep l'
  end.

(** Steps 1 to 6: the tokens handed to the lemmatizer. *)
Definition content_tokens (db : unicode_db) (tt : text_tools)
  (text : option str) : list str :=
  let text := match text with None => [] | Some t => t end in
  let text := get_text tt text in
  let text := Re.sub RE_URL (lit "<URL>") text in
  let text := Re.sub RE_MAIL (lit "<EMAIL>") text in
  let text := lower db text in
  let text := Re.sub (RE_PUNCT tt) [] text in
  let tokens := split text in
  filter (fun w => negb (existsb (str_eqb w) (stop_words tt))) tokens.

Definition preprocess_mail_content (db : unicode_db) (tt : text_tools)
  (text : option str) : str :=
  let tokens := content_tokens db tt text in
  let tokens := map (lemmatize tt) tokens in
  join (lit " ") tokens.

(** Tools for plain ASCII text without markup: the text as it is, the ASCII
    word characters, two stop words and no lemmatization. *)
Definition ascii_tools : text_tools :=
  TextTools (fun t => t)
    (fun x => (in_range 48%N 57%N x || in_range 65%N 90%N x
               || in_range 97%N 122%N x || char_eqb x 95%N)%bool)
    [lit "the"; lit "a"]
    (fun w => w).

(* http\S+|www\S+ *)
Definition RE_URL_SHORT : Re.regex :=
  Re.Alt (Re.Cat (word "http") (Re.plus NOT_SPACE))
    (Re.Cat (word "www") (Re.plus NOT_SPACE)).

(** ** Vocabulary of the further properties *)

(** Every white-space character of [t] is a U+0020 followed by a character
    that is not white space. *)
Fixpoint spaced_ok (t : str) : bool :=
  match t with
  | [] => true
  | x :: u =>
      ((if isspace x
        then char_eqb x 32%N
             && match u with y :: _ => negb (isspace y) | [] => false end
        else true)
       && spaced_ok u)%bool
  end.

(** A tidy text: it does not start with white space, and its white space is
    made of single U+0020 between two other characters. *)
Definition tidy (t : str) : bool :=
  (match t with x :: _ => negb (isspace x) | [] => true end && spaced_ok t)%bool.

(** The characters of [s] that are not white space, in order. *)
Definition ink (s : str) : str := filter (fun x => negb (isspace x)) s.

(** What a pattern captures: [deng r i w post g] says that [r] matches
    [w] at index [i] before [post] and closes the groups [g], the last
    closed first. *)
Fixpoint deng (r : Re.regex) (i : nat) (w post : str)
  (g : list (string * str)) : Prop :=
  match r with
  | Re.Eps => w = [] /\ g = []
  | Re.One k => (exists x, w = [x] /\ Re.cls_has k x = true) /\ g = []
  | Re.Cat r1 r2 =>
      exists w1 w2 g1 g2,
        w = w1 ++ w2 /\ g = g2 ++ g1
        /\ deng r1 i w1 (w2 ++ post) g1
        /\ deng r2 (i + List.length w1) w2 post g2
  | Re.Alt r1 r2 => deng r1 i w post g \/ deng r2 i w post g
  | Re.Rep _ lo k =>
      (lo <= List.length w /\ forallb (Re.cls_has k) w = true) /\ g = []
  | Re.Grp n r1 => exists g1, deng r1 i w post g1 /\ g = (n, w) :: g1
  | Re.Bos => (w = [] /\ i = 0) /\ g = []
  | Re.Eos => (w = [] /\ (post = [] \/ post = [10%N])) /\ g = []
  end.

(** The categories of the angle-address branch. *)
Definition ANGLE_CATEGORIES : list string :=
  ["quoted_lastname_firstname_angle"; "lastname_comma_firstname_angle";
   "lastname_firstname_angle"; "username_angle"; "display_angle"]%string.

(** The categories a sender without at-sign can get. *)
Definition NO_AT_CATEGORIES : list string :=
  ["mail_with_brackets"; "mail_fake_domain"; "display_empty_angle";
   "quoted_text_only"; "other"]%string.

(** The categories a bare address can get. *)
Definition BARE_CATEGORIES : list string :=
  ["mail_empty_parentheses"; "mail_parentheses_lastname";
   "mail_with_brackets"; "mail_only"]%string.

(** The flag paired with a category. *)
Fixpoint assoc (k : string) (l : list (string * string)) : string :=
  match l with
  | [] => EmptyString
  | (a, b) :: l' => if String.eqb a k then b else assoc k l'
  end.

Definition flag_of (cat : string) : string := assoc cat CATEGORY_FLAG.

(** * Properties *)

(** ** The decision list always ends in one category and one flag *)

Lemma one_hot_branch (cat flag : string) :
  In (cat, flag) CATEGORY_FLAG ->
  one_hot cat (setitem flag 1%Z (fromkeys FLAG_NAMES 0%Z)).
Proof.
  intros H. simpl in H.
  repeat (destruct H as [H | H];
          [ injection H as <- <-;
            (split; [ simpl; tauto | ]);
            (split; [ reflexivity | ]);
            (split; [ reflexivity | ]);
            eexists; split; [ simpl; eauto 20 | ];
            intros k Hk; simpl in Hk;
            repeat (destruct Hk as [<- | Hk]; [ reflexivity | ]);
            contradiction
          | ]).
  contradiction.
Qed.

Lemma categories_distinct :
  List.length CATEGORIES = 15 /\ NoDup CATEGORIES
  /\ NoDup (map snd CATEGORY_FLAG) /\ map snd CATEGORY_FLAG <> []
  /\ forall f, In f FLAG_NAMES <-> In f (map snd CATEGORY_FLAG).
Proof.
  split; [ reflexivity | ].
  split.
  { unfold CATEGORIES; simpl.
    repeat (constructor; [ simpl; intros H;
      repeat (destruct H as [H | H]; [ discriminate H | ]); exact H | ]).
    constructor. }
  split.
  { simpl.
    repeat (constructor; [ simpl; intros H;
      repeat (destruct H as [H | H]; [ discriminate H | ]); exact H | ]).
    constructor. }
  split; [ discriminate | ].
  intros f; simpl; tauto.
Qed.

Lemma classify_one_hot (sender : option str) :
  one_hot (fst (classify sender)) (snd (classify sender)).
Proof.
  unfold classify.
  repeat match goal with
         | |- context [let (_, _) := ?p in _] => destruct p
         | |- context [if ?b then _ else _] => destruct b
         end;
    cbn [fst snd]; apply one_hot_branch; simpl; tauto.
Qed.

(** C1. For every sender, null and empty included, [classify] returns one
    of the 15 categories, and its flag dictionary holds the 15 flags with
    exactly one of them at 1, the flag of the returned category, and the
    other 14 at 0. *)
Theorem classify_total_one_hot (sender : option str) :
  one_hot (fst (classify sender)) (snd (classify sender))
  /\ List.length CATEGORIES = 15 /\ NoDup CATEGORIES
  /\ NoDup (map snd CATEGORY_FLAG).
Proof.
  split; [ apply classify_one_hot | repeat split; apply categories_distinct ].
Qed.

(** ** The matcher finds exactly what the patterns mean *)

Section Engine.
Import Re.

Lemma in_skipn_runs (k : cls) (s : str) :
  forall lo i g st',
    In st' (skipn lo (runs k i s g)) <->
    exists w, s = w ++ rest st' /\ forallb (cls_has k) w = true
              /\ lo <= List.length w /\ pos st' = i + List.length w
              /\ groups st' = g.
Proof.
  induction s as [ | x t IH ]; intros lo i g st'.
  - destruct lo as [ | lo ]; simpl.
    + split.
      * intros [<- | []]. exists []. simpl. repeat split; auto; lia.
      * intros (w & Hw & _ & _ & Hp & Hg).
        destruct w; [ | discriminate ].
        left. destruct st'; simpl in *. subst.
        f_equal. lia.
    + split.
      * destruct lo; simpl; intros [].
      * intros (w & Hw & _ & Hl & _).
        destruct w; [ simpl in Hl; lia | discriminate ].
  - destruct lo as [ | lo ].
    + cbn [skipn runs]. split.
      * intros [<- | H].
        { exists []. simpl. repeat split; auto; lia. }
        destruct (cls_has k x) eqn:Hx; [ | destruct H ].
        apply (IH 0) in H. destruct H as (w & Hw & Hall & _ & Hp & Hg).
        exists (x :: w). simpl. rewrite Hx, Hall, Hw.
        repeat split; auto; lia.
      * intros (w & Hw & Hall & _ & Hp & Hg).
        destruct w as [ | y w ].
        { left. destruct st'; simpl in *. subst. f_equal. lia. }
        right. simpl in Hw, Hall. injection Hw as <- Hw.
        apply andb_true_iff in Hall. destruct Hall as [Hx Hall].
        rewrite Hx. apply (IH 0). exists w. simpl in Hp.
        repeat split; auto; lia.
    + cbn [skipn runs]. split.
      * intros H.
        destruct (cls_has k x) eqn:Hx;
          [ | destruct lo; simpl in H; destruct H ].
        apply IH in H. destruct H as (w & Hw & Hall & Hl & Hp & Hg).
        exists (x :: w). simpl. rewrite Hx, Hall, Hw.
        repeat split; auto; lia.
      * intros (w & Hw & Hall & Hl & Hp & Hg).
        destruct w as [ | y w ]; [ simpl in Hl; lia | ].
        simpl in Hw, Hall, Hl, Hp. injection Hw as <- Hw.
        apply andb_true_iff in Hall. destruct Hall as [Hx Hall].
        rewrite Hx. apply IH. exists w. repeat split; auto; lia.
Qed.

Lemma exec_sound (r : regex) :
  forall st st',
    In st' (exec r st) ->
    exists w, rest st = w ++ rest st'
              /\ pos st' = pos st + List.length w
              /\ den r (pos st) w (rest st').
Proof.
  induction r as [ | k | r1 IH1 r2 IH2 | r1 IH1 r2 IH2 | gr lo k | n r1 IH1 | | ];
    intros st st' H; simpl in H.
  - destruct H as [<- | []]. exists []. simpl. repeat split; auto.
  - destruct (rest st) as [ | x t ] eqn:Hr; [ destruct H | ].
    destruct (cls_has k x) eqn:Hx; [ | destruct H ].
    destruct H as [<- | []]. exists [x]. simpl. repeat split; try lia.
    exists x. auto.
  - apply in_flat_map in H. destruct H as (m & H1 & H2).
    apply IH1 in H1. apply IH2 in H2.
    destruct H1 as (w1 & E1 & P1 & D1). destruct H2 as (w2 & E2 & P2 & D2).
    exists (w1 ++ w2). rewrite E1, E2, P2, P1, <- app_assoc, length_app.
    repeat split; try lia.
    simpl. exists w1, w2. rewrite <- E2, <- P1. auto.
  - apply in_app_or in H. destruct H as [H | H].
    + apply IH1 in H. destruct H as (w & E & P & D). exists w. simpl. auto.
    + apply IH2 in H. destruct H as (w & E & P & D). exists w. simpl. auto.
  - assert (H' : In st' (skipn lo (runs k (pos st) (rest st) (groups st)))).
    { destruct gr; [ apply in_rev in H | ]; exact H. }
    apply in_skipn_runs in H'. destruct H' as (w & E & Hall & Hl & P & _).
    exists w. simpl. auto.
  - apply in_map_iff in H. destruct H as (m & <- & H).
    apply IH1 in H. destruct H as (w & E & P & D). exists w. simpl. auto.
  - destruct (Nat.eqb (pos st) 0) eqn:H0; [ | destruct H ].
    destruct H as [<- | []]. apply Nat.eqb_eq in H0.
    exists []. simpl. repeat split; auto.
  - destruct (rest st) as [ | x [ | y t ] ] eqn:Hr.
    + destruct H as [<- | []]. exists []. simpl. rewrite Hr. repeat split; auto.
    + destruct (char_eqb x 10%N) eqn:Hx; [ | destruct H ].
      destruct H as [<- | []]. apply N.eqb_eq in Hx. subst x.
      exists []. simpl. rewrite Hr. repeat split; auto.
    + destruct H.
Qed.

Lemma exec_complete (r : regex) :
  forall st w post,
    den r (pos st) w post ->
    rest st = w ++ post ->
    exists st', In st' (exec r st) /\ rest st' = post
                /\ pos st' = pos st + List.length w.
Proof.
  induction r as [ | k | r1 IH1 r2 IH2 | r1 IH1 r2 IH2 | gr lo k | n r1 IH1 | | ];
    intros st w post D E; simpl in D.
  - subst w. exists st. simpl. repeat split; auto.
  - destruct D as (x & -> & Hx). simpl in E.
    exists (MState (S (pos st)) post (groups st)).
    simpl. rewrite E, Hx.
    split; [ left; reflexivity | split; [ reflexivity | lia ] ].
  - destruct D as (w1 & w2 & -> & D1 & D2). rewrite <- app_assoc in E.
    destruct (IH1 st w1 (w2 ++ post) D1 E) as (m & H1 & E1 & P1).
    rewrite <- P1 in D2.
    destruct (IH2 m w2 post D2 E1) as (st' & H2 & E2 & P2).
    exists st'. simpl. repeat split; auto.
    + apply in_flat_map. exists m. auto.
    + rewrite length_app. lia.
  - destruct D as [D | D].
    + destruct (IH1 st w post D E) as (st' & H & E' & P').
      exists st'. simpl. repeat split; auto. apply in_or_app. auto.
    + destruct (IH2 st w post D E) as (st' & H & E' & P').
      exists st'. simpl. repeat split; auto. apply in_or_app. auto.
  - destruct D as [Hl Hall].
    exists (MState (pos st + List.length w) post (groups st)).
    simpl. repeat split; auto.
    assert (H : In (MState (pos st + List.length w) post (groups st))
                  (skipn lo (runs k (pos st) (rest st) (groups st)))).
    { apply in_skipn_runs. exists w. simpl. auto. }
    destruct gr; [ apply in_rev; rewrite rev_involutive | ]; exact H.
  - destruct (IH1 st w post D E) as (st' & H & E' & P').
    eexists. simpl. split.
    + apply in_map_iff. exists st'. split; [ reflexivity | exact H ].
    + simpl. auto.
  - destruct D as [-> D0]. exists st. simpl. rewrite D0. simpl.
    repeat split; auto.
  - destruct D as [-> D]. simpl in E. exists st. simpl.
    rewrite E. destruct D as [-> | ->]; simpl; repeat split; auto.
Qed.

Lemma match_at_spec (r : regex) (i : nat) (s : str) :
  matched (match_at r i s) = true <->
  exists w post, s = w ++ post /\ den r i w post.
Proof.
  unfold match_at. split.
  - destruct (exec r (MState i s [])) as [ | st l ] eqn:He; [ discriminate | ].
    intros _.
    destruct (exec_sound r (MState i s []) st) as (w & E & _ & D).
    { rewrite He. left. reflexivity. }
    exists w, (rest st). auto.
  - intros (w & post & E & D).
    destruct (exec_complete r (MState i s []) w post D E) as (st' & H & _).
    destruct (exec r (MState i s [])); [ destruct H | reflexivity ].
Qed.

Lemma rmatch_spec (r : regex) (s : str) :
  matched (rmatch r s) = true <->
  exists w post, s = w ++ post /\ den r 0 w post.
Proof. apply match_at_spec. Qed.

Lemma search_from_spec (r : regex) (s : str) :
  forall i,
    matched (search_from r i s) = true <->
    exists pre w post, s = pre ++ w ++ post
                       /\ den r (i + List.length pre) w post.
Proof.
  induction s as [ | x t IH ]; intros i; simpl.
  - destruct (match_at r i []) eqn:Hm.
    + split; [ intros _ | reflexivity ].
      assert (H : matched (match_at r i []) = true) by (rewrite Hm; reflexivity).
      apply match_at_spec in H. destruct H as (w & post & E & D).
      exists [], w, post. simpl. rewrite Nat.add_0_r. auto.
    + split; [ discriminate | ].
      intros (pre & w & post & E & D).
      destruct pre; [ | discriminate ]. simpl in E, D.
      rewrite Nat.add_0_r in D.
      assert (H : matched (match_at r i []) = true)
        by (apply match_at_spec; exists w, post; auto).
      rewrite Hm in H. discriminate.
  - destruct (match_at r i (x :: t)) eqn:Hm.
    + split; [ intros _ | reflexivity ].
      assert (H : matched (match_at r i (x :: t)) = true)
        by (rewrite Hm; reflexivity).
      apply match_at_spec in H. destruct H as (w & post & E & D).
      exists [], w, post. simpl. rewrite Nat.add_0_r. auto.
    + rewrite IH. split.
      * intros (pre & w & post & E & D).
        exists (x :: pre), w, post. simpl. rewrite E.
        split; [ reflexivity | ].
        replace (i + S (List.length pre)) with (S i + List.length pre) by lia.
        exact D.
      * intros (pre & w & post & E & D).
        destruct pre as [ | y pre ].
        { simpl in E, D. rewrite Nat.add_0_r in D.
          assert (H : matched (match_at r i (x :: t)) = true)
            by (apply match_at_spec; exists w, post; auto).
          rewrite Hm in H. discriminate. }
        simpl in E. injection E as <- E.
        exists pre, w, post. split; [ exact E | ].
        simpl in D.
        replace (S i + List.length pre) with (i + S (List.length pre)) by lia.
        exact D.
Qed.

Lemma search_spec (r : regex) (s : str) :
  matched (search r s) = true <->
  exists pre w post, s = pre ++ w ++ post /\ den r (List.length pre) w post.
Proof. apply (search_from_spec r s 0). Qed.

End Engine.

(** ** Cleaning *)

Section Cleaning.
Import Re.

Lemma ws_has (x : char) : cls_has WS x = isspace x.
Proof. unfold WS; simpl. apply orb_false_r. Qed.

Lemma runs_last (k : cls) (s : str) :
  forall i g d,
    last (runs k i s g) d
    = MState (i + runlen k s) (skipn (runlen k s) s) g.
Proof.
  induction s as [ | x t IH ]; intros i g d.
  - simpl. rewrite Nat.add_0_r. reflexivity.
  - cbn [runs runlen]. destruct (cls_has k x) eqn:Hx.
    + change (last (MState i (x :: t) g :: runs k (S i) t g) d)
        with (match runs k (S i) t g with
              | [] => MState i (x :: t) g
              | _ :: _ => last (runs k (S i) t g) d
              end).
      destruct (runs k (S i) t g) as [ | m l ] eqn:Hr.
      * destruct t; simpl in Hr; discriminate.
      * rewrite <- Hr, IH. simpl. rewrite Nat.add_succ_r. reflexivity.
    + simpl. rewrite Nat.add_0_r. reflexivity.
Qed.

Lemma rev_head (A : Type) (l : list A) (d : A) :
  l <> [] -> exists l', rev l = last l d :: l'.
Proof.
  intros H. exists (rev (removelast l)).
  rewrite (app_removelast_last d H) at 1.
  rewrite rev_app_distr. reflexivity.
Qed.

Lemma match_at_spaces (i : nat) (s : str) :
  match_at RE_SPACES i s
  = match runlen WS s with
    | O => None
    | S n => Some (Match i (S n) [])
    end.
Proof.
  unfold match_at, RE_SPACES, plus. cbn [exec pos rest groups].
  destruct s as [ | x t ]; [ reflexivity | ].
  cbn [runs runlen skipn]. destruct (cls_has WS x) eqn:Hx; [ | reflexivity ].
  assert (Hne : runs WS (S i) t [] <> []) by (destruct t; discriminate).
  destruct (rev_head _ (runs WS (S i) t []) (MState i t []) Hne) as (l' & Hl).
  rewrite Hl, runs_last. cbn [pos groups].
  replace (S i + runlen WS t - i) with (S (runlen WS t)) by lia.
  reflexivity.
Qed.

Lemma squeeze_head (s : str) :
  runlen WS s = 0 -> squeeze true s = squeeze false s.
Proof.
  destruct s as [ | x t ]; [ reflexivity | ].
  simpl. rewrite <- ws_has. destruct (cls_has WS x); [ discriminate | reflexivity ].
Qed.

Lemma sub_spaces (s : str) :
  forall i,
    sub_from RE_SPACES (lit " ") i (runlen WS s) s = squeeze true s
    /\ sub_from RE_SPACES (lit " ") i 0 s = squeeze false s.
Proof.
  induction s as [ | x t IH ]; intros i.
  - split; reflexivity.
  - assert (H0 : sub_from RE_SPACES (lit " ") i 0 (x :: t)
                 = squeeze false (x :: t)).
    { cbn [sub_from]. rewrite match_at_spaces. cbn [runlen squeeze].
      rewrite <- ws_has. destruct (cls_has WS x) eqn:Hx.
      - cbn [m_len]. simpl app. f_equal. apply IH.
      - f_equal. apply IH. }
    split; [ | exact H0 ].
    destruct (runlen WS (x :: t)) as [ | n ] eqn:Hn.
    + rewrite H0. symmetry. apply squeeze_head. exact Hn.
    + cbn [runlen] in Hn. cbn [sub_from squeeze]. rewrite <- ws_has.
      destruct (cls_has WS x); [ | discriminate ].
      injection Hn as <-. apply IH.
Qed.

Lemma lstrip_squeeze (s : str) :
  forall b, lstrip_by isspace (squeeze b s) = squeeze true s.
Proof.
  induction s as [ | x t IH ]; intros b; [ reflexivity | ].
  simpl. destruct (isspace x) eqn:Hx.
  - destruct b; [ apply IH | ].
    simpl. apply IH.
  - simpl. rewrite Hx. reflexivity.
Qed.

Lemma lstrip_app (p : char -> bool) (a b : str) :
  lstrip_by p (a ++ b)
  = if forallb p a then lstrip_by p b else lstrip_by p a ++ b.
Proof.
  induction a as [ | x a IH ]; [ reflexivity | ].
  simpl. destruct (p x); [ exact IH | reflexivity ].
Qed.

Lemma rstrip_cons (p : char -> bool) (x : char) (t : str) :
  rstrip_by p (x :: t)
  = match rstrip_by p t with
    | [] => if p x then [] else [x]
    | y :: t' => x :: y :: t'
    end.
Proof.
  unfold rstrip_by. simpl rev. rewrite lstrip_app.
  destruct (forallb p (rev t)) eqn:Hall.
  - assert (E : lstrip_by p (rev t) = []).
    { clear - Hall. induction (rev t) as [ | y l IH ]; [ reflexivity | ].
      simpl in *. apply andb_true_iff in Hall. destruct Hall as [-> Hl].
      auto. }
    rewrite E. simpl. destruct (p x); reflexivity.
  - rewrite rev_app_distr. simpl.
    destruct (rev (lstrip_by p (rev t))) as [ | y t' ] eqn:E; [ | reflexivity ].
    exfalso.
    assert (E' : lstrip_by p (rev t) = []).
    { rewrite <- (rev_involutive (lstrip_by p (rev t))), E. reflexivity. }
    clear - Hall E'. induction (rev t) as [ | y l IH ]; [ discriminate | ].
    simpl in *. destruct (p y); [ auto | discriminate ].
Qed.

Lemma rstrip_keep (x : char) (t : str) :
  isspace x = false ->
  rstrip_by isspace (x :: t) = x :: rstrip_by isspace t.
Proof.
  intros Hx. rewrite rstrip_cons, Hx.
  destruct (rstrip_by isspace t); reflexivity.
Qed.

Lemma norm_gap (s : str) :
  norm Gap s = match norm Leading s with
               | [] => []
               | y :: t => 32%N :: y :: t
               end.
Proof.
  induction s as [ | x t IH ]; [ reflexivity | ].
  simpl. destruct (isspace x); [ exact IH | reflexivity ].
Qed.

Lemma rstrip_squeeze (s : str) :
  rstrip_by isspace (squeeze true s) = norm Leading s
  /\ rstrip_by isspace (squeeze false s) = norm Word s.
Proof.
  induction s as [ | x t [IHt IHf] ]; [ split; reflexivity | ].
  simpl. destruct (isspace x) eqn:Hx.
  - split; [ exact IHt | ].
    rewrite rstrip_cons, IHt, norm_gap.
    destruct (norm Leading t); reflexivity.
  - rewrite rstrip_keep by exact Hx. rewrite IHf. split; reflexivity.
Qed.

Lemma clean_norm (s : str) : _clean (Some s) = norm Leading s.
Proof.
  unfold _clean, strip, strip_by, sub.
  rewrite (proj2 (sub_spaces s 0)), lstrip_squeeze.
  apply rstrip_squeeze.
Qed.

Lemma norm_norm (s : str) :
  norm Leading (norm Leading s) = norm Leading s
  /\ norm Word (norm Word s) = norm Word s
  /\ norm Word (norm Gap s) = norm Gap s.
Proof.
  induction s as [ | x t (IHl & IHw & IHg) ]; [ repeat split; reflexivity | ].
  assert (H32 : isspace 32%N = true) by reflexivity.
  cbn [norm]. destruct (isspace x) eqn:Hx.
  - repeat split; assumption.
  - cbn [norm]. rewrite ?H32, ?Hx. cbn [norm]. rewrite ?Hx, ?IHw.
    repeat split; reflexivity.
Qed.

(** The spaces of a cleaned string are single U+0020. *)
Lemma norm_spaces (s : str) :
  forall ph x, In x (norm ph s) -> isspace x = true -> x = 32%N.
Proof.
  induction s as [ | y t IH ]; intros ph x H Hx; [ destruct H | ].
  simpl in H. destruct (isspace y) eqn:Hy.
  - eapply IH; eauto.
  - destruct ph; simpl in H;
      repeat (destruct H as [<- | H]; [ congruence || reflexivity | ]);
      eapply IH; eauto.
Qed.

(** Text without white space is left as it is. *)
Lemma norm_id (s : str) :
  existsb isspace s = false ->
  norm Leading s = s /\ norm Word s = s.
Proof.
  induction s as [ | x t IH ]; intros H; [ split; reflexivity | ].
  simpl in H. apply orb_false_iff in H. destruct H as [Hx Ht].
  simpl. rewrite Hx. destruct (IH Ht) as [_ ->]. split; reflexivity.
Qed.

(** C8. Cleaning is idempotent on every input; a null sender cleans to the
    empty string, and a text cleans to itself with leading and trailing
    white space dropped and every inner run of white space turned into a
    single space. *)
Theorem clean_idempotent (s : option str) :
  _clean (Some (_clean s)) = _clean s
  /\ _clean None = []
  /\ forall t, _clean (Some t) = norm Leading t.
Proof.
  split; [ | split; [ reflexivity | exact clean_norm ] ].
  destruct s as [ t | ]; [ | reflexivity ].
  rewrite !clean_norm. apply norm_norm.
Qed.

End Cleaning.

(** ** Rule 2 comes first *)

Lemma contains_nonempty (x : char) (s : str) :
  contains x s = true -> nonempty s = true.
Proof. destruct s; [ discriminate | reflexivity ]. Qed.

(** C3. A cleaned sender with a comma and at least two at-signs is
    classified multi_mails, whatever later rule it would also satisfy. *)
Theorem multi_mails_first (sender : option str) :
  contains (chr ",") (_clean sender) = true ->
  2 <= count (chr "@") (_clean sender) ->
  category sender = "multi_mails"%string.
Proof.
  intros Hc Ha. unfold category, classify.
  rewrite (contains_nonempty _ _ Hc), Hc.
  apply Nat.leb_le in Ha. rewrite Ha. reflexivity.
Qed.

(** Scenario E: the list of two addresses is multi_mails, although each of
    its two fragments is a bare address for the pattern of rule 6. *)
Lemma multi_mails_first_scenario_E :
  (contains (chr ",") (_clean (Some (lit "a@b.com, c@d.com"))) = true
   /\ 2 <= count (chr "@") (_clean (Some (lit "a@b.com, c@d.com"))))
  /\ category (Some (lit "a@b.com, c@d.com")) = "multi_mails"%string
  /\ matched (Re.rmatch RE_EMAIL_ONLY (lit "a@b.com")) = true
  /\ matched (Re.rmatch RE_EMAIL_ONLY (lit "c@d.com")) = true
  /\ category (Some (lit "a@b.com")) = "mail_only"%string.
Proof.
  assert (Hc : contains (chr ",") (_clean (Some (lit "a@b.com, c@d.com"))) = true)
    by (vm_compute; reflexivity).
  assert (Ha : 2 <= count (chr "@") (_clean (Some (lit "a@b.com, c@d.com"))))
    by (vm_compute; lia).
  split; [ split; assumption | ].
  split; [ exact (multi_mails_first (Some (lit "a@b.com, c@d.com")) Hc Ha) | ].
  repeat split; vm_compute; reflexivity.
Defined.

(** ** Senders without an address *)

Lemma features_no_email (db : unicode_db) (s : option str) :
  located_email (_clean s) = [] -> features db s = ZERO_ROW.
Proof. intros H. unfold features. rewrite H. reflexivity. Qed.

(** C5. When no address is located, and in particular for a null or an
    empty sender, the feature dictionary still has its ten entries: the two
    lengths are 0, the entropy is the literal 0.0 and every indicator
    is 0. *)
Theorem features_without_address (db : unicode_db) (s : option str) :
  s = None \/ s = Some [] \/ located_email (_clean s) = [] ->
  features db s = ZERO_ROW
  /\ map fst (features db s) = FEATURE_NAMES
  /\ forall k v, In (k, v) (features db s) ->
       v = Int 0 \/ v = Float FloatZero.
Proof.
  intros H.
  assert (E : features db s = ZERO_ROW).
  { apply features_no_email.
    destruct H as [-> | [-> | H]]; [ reflexivity | reflexivity | exact H ]. }
  rewrite E. split; [ reflexivity | ]. split; [ reflexivity | ].
  intros k v Hin. simpl in Hin.
  repeat (destruct Hin as [Hin | Hin];
          [ injection Hin as <- <-; auto | ]).
  contradiction.
Qed.

Lemma features_without_address_witness :
  features ascii_db None = ZERO_ROW
  /\ features ascii_db (Some (lit "undisclosed recipients")) = ZERO_ROW.
Proof.
  split.
  - apply (features_without_address ascii_db None). left. reflexivity.
  - apply (features_without_address ascii_db
             (Some (lit "undisclosed recipients"))).
    right. right. vm_compute. reflexivity.
Defined.

(** ** The columns of the result *)

Lemma features_keys (db : unicode_db) (s : option str) :
  map fst (features db s) = FEATURE_NAMES.
Proof. unfold features. destruct (local_domain _). reflexivity. Qed.

Lemma classify_keys (s : option str) :
  map fst (flags_record (snd (classify s))) = FLAG_NAMES.
Proof.
  unfold flags_record. rewrite map_map.
  change (fun x : string * Z => fst (fst x, Int (snd x))) with (@fst string Z).
  apply (classify_one_hot s).
Qed.

Lemma keys_of_same (ks : list string) (recs : list (list (string * cell))) :
  fold_left add_key ks ks = ks ->
  (forall r, In r recs -> map fst r = ks) ->
  fold_left (fun acc r => fold_left add_key (map fst r) acc) recs ks = ks.
Proof.
  intros Hks. induction recs as [ | r recs IH ]; intros H; [ reflexivity | ].
  simpl. rewrite (H r (or_introl eq_refl)), Hks.
  apply IH. intros r' Hr'. apply H. right. exact Hr'.
Qed.

Lemma keys_of_uniform (ks : list string) (recs : list (list (string * cell))) :
  fold_left add_key ks [] = ks ->
  fold_left add_key ks ks = ks ->
  recs <> [] ->
  (forall r, In r recs -> map fst r = ks) ->
  keys_of recs = ks.
Proof.
  intros H0 Hks Hne H. destruct recs as [ | r recs ]; [ congruence | ].
  unfold keys_of. simpl. rewrite (H r (or_introl eq_refl)), H0.
  apply keys_of_same; [ exact Hks | ].
  intros r' Hr'. apply H. right. exact Hr'.
Qed.

Lemma DataFrame_columns (recs : list (list (string * cell))) :
  map fst (DataFrame recs) = keys_of recs.
Proof. unfold DataFrame. rewrite map_map. simpl. apply map_id. Qed.

Lemma enrich_df_columns (db : unicode_db) (senders : list (option str)) :
  senders <> [] -> map fst (enrich_df db senders) = FEATURE_NAMES.
Proof.
  intros Hne. unfold enrich_df. rewrite DataFrame_columns.
  apply keys_of_uniform; [ reflexivity | reflexivity | | ].
  - destruct senders; [ congruence | discriminate ].
  - intros r Hr. apply in_map_iff in Hr. destruct Hr as (s & <- & _).
    apply features_keys.
Qed.

Lemma fmt_df_columns (senders : list (option str)) :
  senders <> [] -> map fst (fmt_df senders) = FLAG_NAMES.
Proof.
  intros Hne. unfold fmt_df. rewrite DataFrame_columns.
  apply keys_of_uniform; [ reflexivity | reflexivity | | ].
  - destruct senders; [ congruence | discriminate ].
  - intros r Hr. apply in_map_iff in Hr. destruct Hr as (s & <- & _).
    apply classify_keys.
Qed.




(** ** What the patterns accept *)

Section PatternFacts.
Import Re.

(** Take the next piece [w], with its fact [H], off a concatenation. *)
Ltac den_next D w H :=
  let r := fresh "r" in destruct D as (w & r & -> & H & D).

Lemma forallb_ws (w : str) : forallb (cls_has WS) w = forallb isspace w.
Proof.
  induction w as [ | x w IH ]; [ reflexivity | ].
  cbn [forallb]. rewrite ws_has, IH. reflexivity.
Qed.

Lemma lit_has (a x : char) : cls_has (Lit a) x = true -> x = a.
Proof. simpl. apply N.eqb_eq. Qed.

Lemma nas_has (x : char) :
  cls_has NOT_AT_SPACE x = true <->
  isspace x = false /\ char_eqb x (chr "@") = false.
Proof.
  unfold NOT_AT_SPACE. cbn [cls_has existsb item_has].
  destruct (isspace x), (char_eqb x (chr "@")); simpl; intuition congruence.
Qed.

Lemma eos_spaces (post : str) :
  post = [] \/ post = [10%N] -> forallb isspace post = true.
Proof. intros [-> | ->]; reflexivity. Qed.

Lemma ends_with_app (a : char) (t1 t2 : str) :
  ends_with a t2 -> ends_with a (t1 ++ t2).
Proof.
  intros (u & ws & -> & H). exists (t1 ++ u), ws.
  rewrite <- app_assoc. auto.
Qed.

Lemma ends_with_here (a : char) (ws : str) :
  forallb isspace ws = true -> ends_with a (a :: ws).
Proof. intros H. exists [], ws. auto. Qed.

Lemma rstrip_spaces (u ws : str) (a : char) :
  forallb isspace ws = true -> isspace a = false ->
  rstrip_by isspace (u ++ a :: ws) = u ++ [a].
Proof.
  intros Hws Ha. unfold rstrip_by.
  rewrite rev_app_distr. simpl rev. rewrite <- app_assoc, lstrip_app.
  assert (Hr : forallb isspace (rev ws) = true).
  { apply forallb_forall. intros x Hx. apply in_rev in Hx.
    revert x Hx. apply forallb_forall. exact Hws. }
  rewrite Hr. simpl. rewrite Ha. simpl.
  rewrite rev_involutive. reflexivity.
Qed.

Lemma ends_with_unique (a b : char) (t : str) :
  ends_with a t -> ends_with b t ->
  isspace a = false -> isspace b = false -> a = b.
Proof.
  intros (u & ws & E & Hws) (u' & ws' & E' & Hws') Ha Hb.
  assert (H : u ++ [a] = u' ++ [b]).
  { rewrite <- (rstrip_spaces u ws a Hws Ha),
            <- (rstrip_spaces u' ws' b Hws' Hb), <- E, <- E'. reflexivity. }
  apply app_inj_tail in H. apply H.
Qed.

Lemma ends_paren_empty (t : str) :
  matched (rmatch RE_PAREN_EMPTY t) = true -> ends_with (chr ")") t.
Proof.
  intros H. apply rmatch_spec in H. destruct H as (w & post & -> & D).
  unfold RE_PAREN_EMPTY, plus, star, c in D. cbn [seq den] in D.
  den_next D w0 H0. den_next D w1 H1. den_next D w2 H2. den_next D w3 H3.
  den_next D w4 H4. den_next D w5 H5. den_next D w6 H6. den_next D w7 H7.
  den_next D w8 H8. den_next D w9 H9. den_next D w10 H10.
  destruct D as [-> Hpost].
  destruct H9 as (x & -> & Hx). apply lit_has in Hx. subst x.
  destruct H10 as [_ H10]. rewrite forallb_ws in H10.
  rewrite <- !app_assoc. do 9 apply ends_with_app.
  simpl. apply ends_with_here.
  rewrite forallb_app, H10. apply eos_spaces. exact Hpost.
Qed.

Lemma ends_paren_name (t : str) :
  matched (rmatch RE_PAREN_NAME t) = true -> ends_with (chr ")") t.
Proof.
  intros H. apply rmatch_spec in H. destruct H as (w & post & -> & D).
  unfold RE_PAREN_NAME, plus, star, c in D. cbn [seq den] in D.
  den_next D w0 H0. den_next D w1 H1. den_next D w2 H2. den_next D w3 H3.
  den_next D w4 H4. den_next D w5 H5. den_next D w6 H6. den_next D w7 H7.
  den_next D w8 H8. den_next D w9 H9. den_next D w10 H10.
  destruct D as [-> Hpost].
  destruct H9 as (x & -> & Hx). apply lit_has in Hx. subst x.
  destruct H10 as [_ H10]. rewrite forallb_ws in H10.
  rewrite <- !app_assoc. do 9 apply ends_with_app.
  simpl. apply ends_with_here.
  rewrite forallb_app, H10. apply eos_spaces. exact Hpost.
Qed.

Lemma ends_display_angle (t : str) :
  matched (search RE_DISPLAY_ANGLE t) = true -> ends_with (chr ">") t.
Proof.
  intros H. apply search_spec in H. destruct H as (pre & w & post & -> & D).
  unfold RE_DISPLAY_ANGLE, plus, star, lazy_star, c in D. cbn [seq den] in D.
  den_next D w0 H0. den_next D w1 H1. den_next D w2 H2. den_next D w3 H3.
  destruct D as [-> Hpost].
  den_next H2 a0 K0. den_next H2 a1 K1. den_next H2 a2 K2. den_next H2 a3 K3.
  den_next H2 a4 K4. den_next H2 a5 K5.
  destruct H2 as (x & -> & Hx). apply lit_has in Hx. subst x.
  destruct H3 as [_ H3]. rewrite forallb_ws in H3.
  rewrite <- !app_assoc. do 9 apply ends_with_app.
  simpl. apply ends_with_here.
  rewrite forallb_app, H3. apply eos_spaces. exact Hpost.
Qed.

End PatternFacts.

Section BareAddress.
Import Re.

Ltac den_next D w H :=
  let r := fresh "r" in destruct D as (w & r & -> & H & D).

Lemma count_app (a : char) (s t : str) :
  count a (s ++ t) = count a s + count a t.
Proof. unfold count. rewrite filter_app, length_app. reflexivity. Qed.

Lemma count_cons (a x : char) (t : str) :
  count a (x :: t) = (if char_eqb a x then 1 else 0) + count a t.
Proof. unfold count. simpl. destruct (char_eqb a x); reflexivity. Qed.

Lemma contains_count (a : char) (s : str) :
  contains a s = Nat.ltb 0 (count a s).
Proof.
  induction s as [ | x t IH ]; [ reflexivity | ].
  cbn [contains existsb]. fold (contains a t).
  rewrite count_cons, IH. destruct (char_eqb a x); reflexivity.
Qed.

Lemma nas_text (w : str) :
  forallb (cls_has NOT_AT_SPACE) w = true <->
  existsb isspace w = false /\ contains (chr "@") w = false.
Proof.
  induction w as [ | x w IH ]; [ simpl; intuition | ].
  cbn [forallb existsb contains]. fold (contains (chr "@") w).
  rewrite andb_true_iff, !orb_false_iff, nas_has, IH.
  unfold char_eqb. rewrite (N.eqb_sym (chr "@") x). intuition.
Qed.

Lemma nas_count (w : str) :
  contains (chr "@") w = false -> count (chr "@") w = 0.
Proof.
  induction w as [ | x w IH ]; [ reflexivity | ].
  cbn [contains existsb]. fold (contains (chr "@") w).
  intros H. apply orb_false_iff in H. destruct H as [Hx Hw].
  rewrite count_cons, Hx, (IH Hw). reflexivity.
Qed.

Lemma email_only_shape (t : str) :
  matched (rmatch RE_EMAIL_ONLY t) = true ->
  exists l x y post,
    t = l ++ chr "@" :: x ++ chr "." :: y ++ post
    /\ forallb (cls_has NOT_AT_SPACE) (l ++ x ++ y) = true
    /\ l <> [] /\ x <> [] /\ y <> []
    /\ (post = [] \/ post = [10%N]).
Proof.
  intros H. apply rmatch_spec in H. destruct H as (w & post & -> & D).
  unfold RE_EMAIL_ONLY, plus, c in D. cbn [seq den] in D.
  den_next D w0 H0. den_next D l Hl. den_next D a Ha. den_next D x Hx.
  den_next D d Hd. den_next D y Hy. destruct D as [-> Hpost].
  destruct H0 as [-> _].
  destruct Ha as (xa & -> & Ea). apply lit_has in Ea. subst xa.
  destruct Hd as (xd & -> & Ed). apply lit_has in Ed. subst xd.
  destruct Hl as [Ll Al], Hx as [Lx Ax], Hy as [Ly Ay].
  exists l, x, y, post. rewrite !forallb_app, Al, Ax, Ay.
  repeat split; auto.
  - simpl. rewrite ?app_nil_r.
    repeat (rewrite <- app_assoc; simpl). reflexivity.
  - intros ->. simpl in Ll. lia.
  - intros ->. simpl in Lx. lia.
  - intros ->. simpl in Ly. lia.
Qed.

Lemma email_only_intro (l x y : str) :
  forallb (cls_has NOT_AT_SPACE) (l ++ x ++ y) = true ->
  l <> [] -> x <> [] -> y <> [] ->
  matched (rmatch RE_EMAIL_ONLY (l ++ chr "@" :: x ++ chr "." :: y)) = true.
Proof.
  intros Hall Hl Hx Hy.
  rewrite !forallb_app in Hall. apply andb_true_iff in Hall.
  destruct Hall as [Al Hall]. apply andb_true_iff in Hall.
  destruct Hall as [Ax Ay].
  assert (Ll : 1 <= List.length l) by (destruct l; [ congruence | simpl; lia ]).
  assert (Lx : 1 <= List.length x) by (destruct x; [ congruence | simpl; lia ]).
  assert (Ly : 1 <= List.length y) by (destruct y; [ congruence | simpl; lia ]).
  apply rmatch_spec.
  exists (l ++ chr "@" :: x ++ chr "." :: y), [].
  split; [ rewrite app_nil_r; reflexivity | ].
  unfold RE_EMAIL_ONLY, plus, c. cbn [seq den].
  exists [], (l ++ chr "@" :: x ++ chr "." :: y).
  split; [ reflexivity | ]. split; [ auto | ].
  exists l, (chr "@" :: x ++ chr "." :: y).
  split; [ reflexivity | ]. split; [ auto | ].
  exists [chr "@"], (x ++ chr "." :: y).
  split; [ reflexivity | ]. split; [ exists (chr "@"); auto | ].
  exists x, (chr "." :: y).
  split; [ reflexivity | ]. split; [ auto | ].
  exists [chr "."], y.
  split; [ reflexivity | ]. split; [ exists (chr "."); auto | ].
  exists y, [].
  split; [ rewrite app_nil_r; reflexivity | ]. split; auto.
Qed.

Lemma email_only_has_at (t : str) :
  matched (rmatch RE_EMAIL_ONLY t) = true -> count (chr "@") t = 1.
Proof.
  intros H. apply email_only_shape in H.
  destruct H as (l & x & y & post & -> & Hall & _ & _ & _ & Hpost).
  rewrite !forallb_app in Hall. apply andb_true_iff in Hall.
  destruct Hall as [Al Hall]. apply andb_true_iff in Hall.
  destruct Hall as [Ax Ay].
  apply nas_text in Al, Ax, Ay.
  destruct Al as [_ Al], Ax as [_ Ax], Ay as [_ Ay].
  apply nas_count in Al, Ax, Ay.
  rewrite count_app, count_cons, count_app, count_cons, count_app.
  rewrite Al, Ax, Ay. destruct Hpost as [-> | ->]; reflexivity.
Qed.

Lemma split1_first (a : char) (l d : str) :
  contains a l = false -> split1 a (l ++ a :: d) = (l, d).
Proof.
  induction l as [ | x l IH ]; intros H; cbn [app split1].
  - unfold char_eqb. rewrite N.eqb_refl. reflexivity.
  - cbn [contains existsb] in H. fold (contains a l) in H.
    apply orb_false_iff in H. destruct H as [Hx Hl].
    unfold char_eqb in *. rewrite N.eqb_sym, Hx, (IH Hl). reflexivity.
Qed.

Lemma clean_no_newline (s : option str) : ~ In 10%N (_clean s).
Proof.
  destruct s as [ t | ]; [ | intros [] ].
  rewrite clean_norm. intros H.
  apply norm_spaces in H; [ discriminate | reflexivity ].
Qed.

(** A cleaned sender holding white space is no bare address. *)
Lemma spaced_not_email_only (s : option str) :
  existsb isspace (_clean s) = true ->
  matched (rmatch RE_EMAIL_ONLY (_clean s)) = false.
Proof.
  intros Hws. destruct (matched (rmatch RE_EMAIL_ONLY (_clean s))) eqn:Hm;
    [ exfalso | reflexivity ].
  apply email_only_shape in Hm.
  destruct Hm as (l & x & y & post & E & Hall & _ & _ & _ & Hpost).
  destruct Hpost as [-> | ->].
  - rewrite !forallb_app in Hall. apply andb_true_iff in Hall.
    destruct Hall as [Al Hall]. apply andb_true_iff in Hall.
    destruct Hall as [Ax Ay].
    apply nas_text in Al, Ax, Ay.
    rewrite E in Hws. rewrite app_nil_r in Hws.
    rewrite existsb_app in Hws. cbn [existsb] in Hws.
    rewrite existsb_app in Hws. cbn [existsb] in Hws.
    destruct Al as [Al _], Ax as [Ax _], Ay as [Ay _].
    rewrite Al, Ax, Ay in Hws. discriminate Hws.
  - apply (clean_no_newline s). rewrite E.
    apply in_or_app. right. right.
    apply in_or_app. right. right.
    apply in_or_app. right. left. reflexivity.
Qed.

End BareAddress.

(** ** The parenthesized forms carry no located address *)

Lemma paren_not_display_angle (t : str) :
  matched (Re.rmatch RE_PAREN_NAME t) = true
  \/ matched (Re.rmatch RE_PAREN_EMPTY t) = true ->
  Re.search RE_DISPLAY_ANGLE t = None.
Proof.
  intros H.
  assert (Hp : ends_with (chr ")") t)
    by (destruct H; [ apply ends_paren_name | apply ends_paren_empty ];
        assumption).
  destruct (Re.search RE_DISPLAY_ANGLE t) as [ m | ] eqn:Hs; [ | reflexivity ].
  assert (Ha : ends_with (chr ">") t)
    by (apply ends_display_angle; rewrite Hs; reflexivity).
  assert (E : chr ")" = chr ">")
    by (apply (ends_with_unique _ _ t); auto).
  discriminate E.
Qed.

(** C10, as stated, fails: a@b.c(x) and a@b.c() belong to the two
    parenthesized categories, yet the bare-address pattern accepts the whole
    text, parentheses included, so an address is located and the local
    length is 1. *)
Lemma paren_without_space_has_address :
  category (Some (lit "a@b.c(x)")) = "mail_parentheses_lastname"%string
  /\ located_email (_clean (Some (lit "a@b.c(x)"))) = lit "a@b.c(x)"
  /\ features ascii_db (Some (lit "a@b.c(x)")) <> ZERO_ROW
  /\ In ("email_local_len"%string, Int 1)
        (features ascii_db (Some (lit "a@b.c(x)")))
  /\ category (Some (lit "a@b.c()")) = "mail_empty_parentheses"%string
  /\ located_email (_clean (Some (lit "a@b.c()"))) = lit "a@b.c()".
Proof.
  split; [ vm_compute; reflexivity | ].
  split; [ vm_compute; reflexivity | ].
  split; [ vm_compute; discriminate | ].
  split; [ vm_compute; left; reflexivity | ].
  split; vm_compute; reflexivity.
Qed.

Section ParenForms.
Import Re.

Ltac den_next D w H :=
  let r := fresh "r" in destruct D as (w & r & -> & H & D).

(** Both parenthesized patterns start like the bare-address pattern. *)
Lemma paren_forms_shape (t : str) :
  matched (rmatch RE_PAREN_NAME t) = true
  \/ matched (rmatch RE_PAREN_EMPTY t) = true ->
  exists l x y r,
    t = l ++ chr "@" :: x ++ chr "." :: y ++ r
    /\ forallb (cls_has NOT_AT_SPACE) (l ++ x ++ y) = true
    /\ l <> [] /\ x <> [] /\ y <> [].
Proof.
  intros [H | H]; apply rmatch_spec in H; destruct H as (w & post & -> & D);
    [ unfold RE_PAREN_NAME, plus, star, c in D
    | unfold RE_PAREN_EMPTY, plus, star, c in D ];
    cbn [seq den] in D;
    den_next D w0 H0; den_next D l Hl; den_next D a Ha; den_next D x Hx;
    den_next D d Hd; destruct D as (y & rest & -> & Hy & D);
    destruct H0 as [-> _];
    destruct Ha as (xa & -> & Ea); apply lit_has in Ea; subst xa;
    destruct Hd as (xd & -> & Ed); apply lit_has in Ed; subst xd;
    destruct Hl as [Ll Al], Hx as [Lx Ax], Hy as [Ly Ay];
    exists l, x, y, (rest ++ post);
    rewrite !forallb_app, Al, Ax, Ay;
    (split; [ simpl; repeat (rewrite <- app_assoc; simpl); reflexivity | ]);
    (split; [ reflexivity | ]);
    repeat split; intros ->; simpl in *; lia.
Qed.

(** Without white space and without a second at-sign, the parentheses
    pass for the end of the domain. *)
Lemma paren_bare (t : str) :
  matched (rmatch RE_PAREN_NAME t) = true
  \/ matched (rmatch RE_PAREN_EMPTY t) = true ->
  existsb isspace t = false ->
  count (chr "@") t <= 1 ->
  matched (rmatch RE_EMAIL_ONLY t) = true.
Proof.
  intros Hp Hws Hat.
  destruct (paren_forms_shape t Hp) as (l & x & y & r & -> & Hall & Hl & Hx & Hy).
  apply email_only_intro; auto; [ | intros E; apply app_eq_nil in E; tauto ].
  rewrite !forallb_app in *. apply andb_true_iff in Hall.
  destruct Hall as [Al Hall]. apply andb_true_iff in Hall.
  destruct Hall as [Ax Ay]. rewrite Al, Ax, Ay. cbn [andb].
  apply nas_text.
  rewrite existsb_app in Hws. cbn [existsb] in Hws.
  rewrite existsb_app in Hws. cbn [existsb] in Hws.
  rewrite existsb_app in Hws.
  rewrite !orb_false_iff in Hws.
  split; [ tauto | ].
  rewrite count_app, count_cons, count_app, count_cons, count_app in Hat.
  replace (char_eqb (chr "@") (chr "@")) with true in Hat by reflexivity.
  rewrite contains_count.
  destruct (count (chr "@") r); [ reflexivity | lia ].
Qed.

(** A bare address gives a local part, so not the zero row. *)
Lemma bare_features (db : unicode_db) (s : option str) :
  Re.search RE_DISPLAY_ANGLE (_clean s) = None ->
  matched (rmatch RE_EMAIL_ONLY (_clean s)) = true ->
  located_email (_clean s) = _clean s /\ features db s <> ZERO_ROW.
Proof.
  intros Hs Hm.
  assert (E : located_email (_clean s) = _clean s).
  { unfold located_email, _split_display_angle. rewrite Hs, Hm.
    destruct (negb (nonempty (_clean s))); reflexivity. }
  split; [ exact E | ].
  unfold features. rewrite E.
  destruct (email_only_shape _ Hm)
    as (l & x & y & post & Et & Hall & Hl & _ & _ & _).
  rewrite !forallb_app in Hall. apply andb_true_iff in Hall.
  destruct Hall as [Al _]. apply nas_text in Al. destruct Al as [_ Al].
  unfold local_domain. rewrite Et.
  replace (contains (chr "@") (l ++ chr "@" :: x ++ chr "." :: y ++ post))
    with true
    by (symmetry; unfold contains; rewrite existsb_app; cbn [existsb];
        unfold char_eqb; rewrite N.eqb_refl, orb_true_r; reflexivity).
  rewrite (split1_first _ l _ Al).
  intros Ez. injection Ez as Ez _.
  destruct l; [ congruence | discriminate Ez ].
Qed.

End ParenForms.

(** C10, amended. For every sender whose cleaned text is an address followed
    by a parenthesized name or by empty parentheses, the angle-address
    pattern does not match, and the bare-address pattern rejects the text
    exactly when it holds white space or a second at-sign: then no address
    is located and every feature is at zero. Otherwise (no white space and
    a single at-sign) the whole text, parentheses included, is taken as the
    address, and the features are not all at zero. *)
Theorem paren_forms_address (db : unicode_db) (s : option str) :
  matched (Re.rmatch RE_PAREN_NAME (_clean s)) = true
  \/ matched (Re.rmatch RE_PAREN_EMPTY (_clean s)) = true ->
  Re.search RE_DISPLAY_ANGLE (_clean s) = None
  /\ (matched (Re.rmatch RE_EMAIL_ONLY (_clean s)) = false
      <-> existsb isspace (_clean s) = true
          \/ 2 <= count (chr "@") (_clean s))
  /\ (matched (Re.rmatch RE_EMAIL_ONLY (_clean s)) = false ->
      located_email (_clean s) = [] /\ features db s = ZERO_ROW)
  /\ (matched (Re.rmatch RE_EMAIL_ONLY (_clean s)) = true ->
      located_email (_clean s) = _clean s /\ features db s <> ZERO_ROW).
Proof.
  intros Hp.
  assert (Hs : Re.search RE_DISPLAY_ANGLE (_clean s) = None)
    by (apply paren_not_display_angle; exact Hp).
  split; [ exact Hs | ]. split; [ split | split ].
  - intros Hm.
    destruct (existsb isspace (_clean s)) eqn:Hws; [ left; reflexivity | ].
    right. destruct (le_lt_dec 2 (count (chr "@") (_clean s))) as [ | Hlt ];
      [ assumption | ].
    rewrite (paren_bare _ Hp Hws) in Hm by lia. discriminate Hm.
  - intros [Hws | Hat]; [ apply spaced_not_email_only; exact Hws | ].
    destruct (matched (Re.rmatch RE_EMAIL_ONLY (_clean s))) eqn:Hm;
      [ | reflexivity ].
    apply email_only_has_at in Hm. lia.
  - intros Hm.
    assert (E : located_email (_clean s) = []).
    { unfold located_email, _split_display_angle. rewrite Hs, Hm.
      destruct (negb (nonempty (_clean s))); reflexivity. }
    split; [ exact E | apply features_no_email; exact E ].
  - intros Hm. apply bare_features; assumption.
Qed.

Lemma paren_forms_address_witness :
  (category (Some (lit "john@corp.com (John Smith)"))
   = "mail_parentheses_lastname"%string
   /\ features ascii_db (Some (lit "john@corp.com (John Smith)")) = ZERO_ROW)
  /\ (category (Some (lit "john@corp.com ()"))
      = "mail_empty_parentheses"%string
      /\ features ascii_db (Some (lit "john@corp.com ()")) = ZERO_ROW)
  /\ (category (Some (lit "a@b.c(x@y)")) = "mail_parentheses_lastname"%string
      /\ features ascii_db (Some (lit "a@b.c(x@y)")) = ZERO_ROW)
  /\ (category (Some (lit "a@b.c(x)")) = "mail_parentheses_lastname"%string
      /\ located_email (_clean (Some (lit "a@b.c(x)"))) = lit "a@b.c(x)").
Proof.
  split; [ split; [ vm_compute; reflexivity | ] | ].
  { apply (paren_forms_address ascii_db
             (Some (lit "john@corp.com (John Smith)"))).
    - left. vm_compute. reflexivity.
    - vm_compute. reflexivity. }
  split; [ split; [ vm_compute; reflexivity | ] | ].
  { apply (paren_forms_address ascii_db (Some (lit "john@corp.com ()"))).
    - right. vm_compute. reflexivity.
    - vm_compute. reflexivity. }
  split; [ split; [ vm_compute; reflexivity | ] | ].
  { apply (paren_forms_address ascii_db (Some (lit "a@b.c(x@y)"))).
    - left. vm_compute. reflexivity.
    - vm_compute. reflexivity. }
  split; [ vm_compute; reflexivity | ].
  apply (paren_forms_address ascii_db (Some (lit "a@b.c(x)"))).
  - left. vm_compute. reflexivity.
  - vm_compute. reflexivity.
Defined.

(** ** An address alone between angle brackets *)

Section AngleOnly.

Variables l x y : str.

Hypothesis no_space : existsb isspace (l ++ x ++ y) = false.
Hypothesis no_at : contains (chr "@") (l ++ x ++ y) = false.
Hypothesis dot_inside : x <> [].

Lemma angle_only_parts :
  forallb (Re.cls_has NOT_AT_SPACE) (chr "<" :: l) = true
  /\ forallb (Re.cls_has NOT_AT_SPACE) x = true
  /\ forallb (Re.cls_has NOT_AT_SPACE) (y ++ [chr ">"]) = true.
Proof.
  assert (H : forallb (Re.cls_has NOT_AT_SPACE) (l ++ x ++ y) = true)
    by (apply nas_text; auto).
  rewrite !forallb_app in H. apply andb_true_iff in H.
  destruct H as [Al H]. apply andb_true_iff in H. destruct H as [Ax Ay].
  rewrite forallb_app. cbn [forallb]. rewrite Al, Ax, Ay. repeat split.
Qed.

Lemma angle_only_clean : _clean (Some (angle_only l x y)) = (angle_only l x y).
Proof.
  rewrite clean_norm. apply norm_id.
  destruct angle_only_parts as (Al & Ax & Ay).
  apply nas_text in Al, Ax, Ay.
  unfold angle_only.
  change (chr "<" :: l ++ chr "@" :: x ++ chr "." :: y ++ [chr ">"])
    with ((chr "<" :: l) ++ chr "@" :: x ++ chr "." :: (y ++ [chr ">"])).
  rewrite existsb_app. cbn [existsb]. rewrite existsb_app. cbn [existsb].
  destruct Al as [Al _], Ax as [Ax _], Ay as [Ay _].
  fold (existsb isspace l). cbn [existsb] in Al.
  rewrite Al, Ax, Ay. reflexivity.
Qed.

Lemma angle_only_one_at : count (chr "@") (angle_only l x y) = 1.
Proof.
  destruct angle_only_parts as (Al & Ax & Ay).
  apply nas_text in Al, Ax, Ay.
  destruct Al as [_ Al], Ax as [_ Ax], Ay as [_ Ay].
  apply nas_count in Al, Ax, Ay.
  unfold angle_only.
  change (chr "<" :: l ++ chr "@" :: x ++ chr "." :: y ++ [chr ">"])
    with ((chr "<" :: l) ++ chr "@" :: x ++ chr "." :: (y ++ [chr ">"])).
  rewrite count_app, Al, count_cons, count_app, Ax, count_cons, Ay.
  reflexivity.
Qed.

Lemma angle_only_ends : ends_with (chr ">") (angle_only l x y).
Proof.
  exists (chr "<" :: l ++ chr "@" :: x ++ [chr "."] ++ y), [].
  split; [ | reflexivity ].
  unfold angle_only. simpl. f_equal. rewrite <- !app_assoc. simpl.
  rewrite <- !app_assoc. reflexivity.
Qed.

Lemma angle_only_not_paren :
  matched (Re.rmatch RE_PAREN_EMPTY (angle_only l x y)) = false
  /\ matched (Re.rmatch RE_PAREN_NAME (angle_only l x y)) = false.
Proof.
  split.
  - destruct (matched (Re.rmatch RE_PAREN_EMPTY (angle_only l x y))) eqn:H;
      [ | reflexivity ].
    apply ends_paren_empty in H.
    assert (E : chr ")" = chr ">")
      by (apply (ends_with_unique _ _ (angle_only l x y)); auto using angle_only_ends).
    discriminate E.
  - destruct (matched (Re.rmatch RE_PAREN_NAME (angle_only l x y))) eqn:H;
      [ | reflexivity ].
    apply ends_paren_name in H.
    assert (E : chr ")" = chr ">")
      by (apply (ends_with_unique _ _ (angle_only l x y)); auto using angle_only_ends).
    discriminate E.
Qed.

Lemma angle_only_is_bare :
  matched (Re.rmatch RE_EMAIL_ONLY (angle_only l x y)) = true.
Proof.
  destruct angle_only_parts as (Al & Ax & Ay).
  apply (email_only_intro (chr "<" :: l) x (y ++ [chr ">"])).
  - rewrite !forallb_app. rewrite forallb_app in Ay.
    rewrite Al, Ax, Ay. reflexivity.
  - discriminate.
  - exact dot_inside.
  - destruct y; discriminate.
Qed.

Lemma angle_only_category :
  category (Some (angle_only l x y))
  = if matched (Re.search RE_BRACKETS (angle_only l x y))
    then "mail_with_brackets"%string else "mail_only"%string.
Proof.
  unfold category, classify.
  rewrite angle_only_clean, angle_only_one_at.
  rewrite (proj1 angle_only_not_paren), (proj2 angle_only_not_paren).
  rewrite angle_only_is_bare.
  change (nonempty (angle_only l x y)) with true.
  rewrite andb_false_r. cbn [negb Nat.leb].
  destruct (matched (Re.search RE_BRACKETS (angle_only l x y))); reflexivity.
Qed.

End AngleOnly.

(** C9, as stated, fails: the address a@[1.2.3.4] alone between angle
    brackets, without white space and with a dot in its domain, holds a
    bracketed fragment, and rule 5 comes before rule 6. *)
Lemma angle_only_with_brackets :
  angle_only (lit "a") (lit "[1") (lit "2.3.4]") = lit "<a@[1.2.3.4]>"
  /\ existsb isspace (lit "a" ++ lit "[1" ++ lit "2.3.4]") = false
  /\ contains (chr "@") (lit "a" ++ lit "[1" ++ lit "2.3.4]") = false
  /\ lit "[1" <> []
  /\ category (Some (lit "<a@[1.2.3.4]>")) = "mail_with_brackets"%string
  /\ category (Some (lit "<a@[1.2.3.4]>")) <> "mail_only"%string.
Proof.
  repeat split; try (vm_compute; reflexivity); vm_compute; discriminate.
Qed.

(** C9, amended. A sender that is an address alone between angle brackets,
    [<l@x.y>] without white space, with one at-sign and a non-empty [x]
    before the dot of its domain, is classified mail_only when it holds no
    bracketed fragment: the bare-address pattern takes the angle brackets
    as address characters.  (With a bracketed fragment rule 5 comes first
    and the category is mail_with_brackets.) *)
Theorem angle_only_is_mail_only (l x y : str) :
  existsb isspace (l ++ x ++ y) = false ->
  contains (chr "@") (l ++ x ++ y) = false ->
  x <> [] ->
  matched (Re.rmatch RE_EMAIL_ONLY (angle_only l x y)) = true
  /\ category (Some (angle_only l x y))
     = if matched (Re.search RE_BRACKETS (angle_only l x y))
       then "mail_with_brackets"%string else "mail_only"%string.
Proof.
  intros Hs Ha Hx. split.
  - apply angle_only_is_bare; assumption.
  - apply angle_only_category; assumption.
Qed.

Lemma angle_only_is_mail_only_witness :
  angle_only (lit "a") (lit "b") (lit "com") = lit "<a@b.com>"
  /\ matched (Re.rmatch RE_EMAIL_ONLY (lit "<a@b.com>")) = true
  /\ category (Some (lit "<a@b.com>")) = "mail_only"%string.
Proof.
  split; [ reflexivity | ].
  apply (angle_only_is_mail_only (lit "a") (lit "b") (lit "com")).
  - vm_compute. reflexivity.
  - vm_compute. reflexivity.
  - discriminate.
Defined.

(** ** The placeholder names are looked for in the whole sender *)

Section FakeDomain.
Import Re.

Lemma litI_spec (p x : char) :
  (p = 46 \/ 97 <= p <= 122)%N ->
  cls_has (LitI p) x = true <-> eq_ignorecase x p.
Proof.
  intros Hp. unfold eq_ignorecase, cls_has, sre_lower, sre_fixes, in_range,
    char_eqb.
  destruct (N.leb_spec 65 x), (N.leb_spec x 90), (N.eqb_spec x 304),
    (N.eqb_spec x 8490), (N.eqb_spec p 105), (N.eqb_spec p 115),
    (N.eqb_spec p 107); cbn [andb orb existsb]; try lia;
    repeat match goal with
           | |- context [N.eqb ?a ?b] => destruct (N.eqb_spec a b)
           end; cbn [andb orb existsb];
    split; intros Hm; try discriminate Hm; try reflexivity; lia.
Qed.

Lemma den_lits (l : list char) :
  forall i w post,
    den (seq (map (fun a => One (LitI a)) l)) i w post <->
    Forall2 (fun x p => cls_has (LitI p) x = true) w l.
Proof.
  induction l as [ | p l IH ]; intros i w post.
  - simpl. split; [ intros ->; constructor | intros H; inversion H; auto ].
  - destruct l as [ | q l' ].
    + simpl. split.
      * intros (x & -> & Hx). repeat constructor. exact Hx.
      * intros H. inversion H as [ | x p' w' l0 Hx Hw ]; subst.
        inversion Hw; subst. exists x. auto.
    + change (seq (map (fun a => One (LitI a)) (p :: q :: l')))
        with (Cat (One (LitI p)) (seq (map (fun a => One (LitI a)) (q :: l')))).
      cbn [den]. split.
      * intros (w1 & w2 & -> & (x & -> & Hx) & D).
        apply IH in D. simpl. constructor; assumption.
      * intros H. inversion H as [ | x p' w' l0 Hx Hw ]; subst.
        exists [x], w'. split; [ reflexivity | ].
        split; [ exists x; auto | ]. apply IH. exact Hw.
Qed.

Lemma Forall2_weaken (P Q : char -> char -> Prop) (w l : list char) :
  (forall x p, In p l -> P x p -> Q x p) ->
  Forall2 P w l -> Forall2 Q w l.
Proof.
  intros H F. induction F as [ | x p w l Hx F IH ]; constructor.
  - apply H; [ left; reflexivity | exact Hx ].
  - apply IH. intros x' p' Hin. apply H. right. exact Hin.
Qed.

Lemma den_wordI (s : string) (i : nat) (w post : str) :
  Forall (fun p => p = 46 \/ 97 <= p <= 122)%N (lit s) ->
  den (wordI s) i w post <-> Forall2 eq_ignorecase w (lit s).
Proof.
  intros Hs. unfold wordI. rewrite den_lits.
  rewrite Forall_forall in Hs.
  split; apply Forall2_weaken; intros x p Hin H;
    apply (litI_spec p x (Hs p Hin)); exact H.
Qed.

Lemma fake_domain_den (i : nat) (w post : str) :
  den RE_FAKE_DOMAIN i w post <-> fake_name w.
Proof.
  unfold RE_FAKE_DOMAIN, fake_name. cbn [den].
  rewrite !den_wordI; [ reflexivity | | | ];
    apply Forall_forall; intros p Hp; vm_compute in Hp;
    repeat (destruct Hp as [<- | Hp]; [ lia | ]); contradiction.
Qed.

Lemma fake_domain_search (t : str) :
  matched (search RE_FAKE_DOMAIN t) = true <->
  exists pre mid post, t = pre ++ mid ++ post /\ fake_name mid.
Proof.
  rewrite search_spec. split; intros (pre & mid & post & E & D);
    exists pre, mid, post; (split; [ exact E | ]).
  - apply (fake_domain_den (List.length pre) mid post). exact D.
  - apply fake_domain_den. exact D.
Qed.

End FakeDomain.

(** C4, as stated, fails: in localhost <bob@corp.org> the placeholder name
    stands in the display text; the sender gets past rules 1 to 7 and is
    classified mail_fake_domain although the domain of its address,
    corp.org, matches none of the placeholder names. *)
Lemma fake_name_outside_domain :
  past_rule_7 (_clean (Some (lit "localhost <bob@corp.org>"))) = true
  /\ category (Some (lit "localhost <bob@corp.org>"))
     = "mail_fake_domain"%string
  /\ domain_of (_clean (Some (lit "localhost <bob@corp.org>")))
     = lit "corp.org"
  /\ matched (Re.search RE_FAKE_DOMAIN (lit "corp.org")) = false.
Proof. repeat split; vm_compute; reflexivity. Qed.

(** C4, amended. A cleaned sender that gets past rules 1 to 7 is classified
    mail_fake_domain if and only if one of the names localhost,
    example.com, no.hostname.specified occurs somewhere in it (display
    text, local part or domain), compared without regard to case as the
    pattern engine does. *)
Theorem fake_domain_anywhere (s : option str) :
  past_rule_7 (_clean s) = true ->
  category s = "mail_fake_domain"%string <->
  exists pre mid post, _clean s = pre ++ mid ++ post /\ fake_name mid.
Proof.
  intros Hp. unfold past_rule_7 in Hp.
  repeat (apply andb_true_iff in Hp;
          let H := fresh "Hr" in destruct Hp as [Hp H];
          apply negb_true_iff in H).
  rewrite <- fake_domain_search.
  unfold category, classify.
  rewrite Hp, Hr4, Hr3, Hr2, Hr1, Hr0, Hr. cbn [negb].
  destruct (matched (Re.search RE_FAKE_DOMAIN (_clean s))).
  - split; reflexivity.
  - split; [ | discriminate ].
    intros H. exfalso. revert H.
    destruct (_split_display_angle (_clean s)) as [disp angle].
    repeat match goal with
           | |- context [if ?b then _ else _] => destruct b
           end; cbn [fst]; discriminate.
Qed.

(** Scenario F. *)
Lemma fake_domain_anywhere_witness :
  past_rule_7 (_clean (Some (lit "someone@localhost"))) = true
  /\ category (Some (lit "someone@localhost")) = "mail_fake_domain"%string.
Proof.
  assert (Hp : past_rule_7 (_clean (Some (lit "someone@localhost"))) = true)
    by (vm_compute; reflexivity).
  split; [ exact Hp | ].
  apply (proj2 (fake_domain_anywhere (Some (lit "someone@localhost")) Hp)).
  exists (lit "someone@"), (lit "localhost"), [].
  split; [ vm_compute; reflexivity | ].
  right. left. unfold eq_ignorecase.
  repeat constructor.
Defined.

(** ** Displays with a comma *)

(** C2. The code does not give lastname_comma_firstname_angle to a display
    with a comma: the fully quoted form of Scenario C is taken by the
    quoted-name rule before it, and the unquoted form fails the pattern,
    whose closing quote is not optional; only a display with a closing quote
    and no opening quote reaches the category. *)
Theorem comma_display_categories :
  category (Some (dquote :: lit "Smith, John"
                    ++ dquote :: lit " <jsmith@corp.com>"))
  = "quoted_lastname_firstname_angle"%string
  /\ category (Some (lit "Smith,John <jsmith@corp.com>"))
     = "display_angle"%string
  /\ category (Some (lit "Smith, John <jsmith@corp.com>"))
     = "display_angle"%string
  /\ category (Some (lit "Smith, John" ++ dquote :: lit " <jsmith@corp.com>"))
     = "lastname_comma_firstname_angle"%string.
Proof. repeat split; vm_compute; reflexivity. Qed.

Section CommaDisplay.
Import Re.

Ltac den_next D w H :=
  let r := fresh "r" in destruct D as (w & r & -> & H & D).

Lemma not_qclg_has (x : char) :
  cls_has NOT_QCLG x = true -> char_eqb x dquote = false.
Proof.
  unfold NOT_QCLG. cbn [cls_has existsb item_has].
  destruct (char_eqb x dquote); [ discriminate | reflexivity ].
Qed.

Lemma not_qclg_text (w : str) :
  forallb (cls_has NOT_QCLG) w = true ->
  forallb (cls_has (NoneOf [Ch dquote])) w = true.
Proof.
  induction w as [ | x w IH ]; [ reflexivity | ].
  cbn [forallb]. intros H. apply andb_true_iff in H. destruct H as [Hx Hw].
  rewrite (IH Hw). cbn [cls_has existsb item_has].
  rewrite (not_qclg_has x Hx). reflexivity.
Qed.

(** A sender accepted by the comma pattern and not by the quoted-name
    pattern has a closing double quote and does not open with one. *)
Lemma comma_pattern_unbalanced (t : str) :
  matched (rmatch RE_LAST_COMMA_FIRST t) = true ->
  matched (rmatch RE_QUOTED_NAME_ANG t) = false ->
  startswith dquote t = false /\ contains dquote t = true.
Proof.
  intros Hc Hq. apply rmatch_spec in Hc. destruct Hc as (w & post & -> & D).
  unfold RE_LAST_COMMA_FIRST, opt, plus, star, c in D. cbn [seq den] in D.
  den_next D w0 H0. den_next D q Hq0. den_next D V HX. den_next D cm Hcm.
  den_next D W HY. den_next D q1 Hq1. den_next D ws Hws. den_next D wl Hlt.
  den_next D U HU. den_next D wg Hgt. destruct D as [-> Hpost].
  destruct H0 as [-> _].
  destruct Hcm as (xc & -> & Ec). apply lit_has in Ec. subst xc.
  destruct Hq1 as (xq & -> & Eq1). apply lit_has in Eq1. subst xq.
  destruct Hlt as (xl & -> & El). apply lit_has in El. subst xl.
  destruct Hgt as (xg & -> & Eg). apply lit_has in Eg. subst xg.
  destruct HX as [LX AX], HY as [LY AY], HU as [LU AU], Hws as [_ Aws].
  split.
  - destruct Hq0 as [(xq & -> & Eq0) | ->].
    + exfalso. apply lit_has in Eq0. subst xq.
      assert (Hm : matched (rmatch RE_QUOTED_NAME_ANG
                (([] ++ [dquote] ++ V ++ [chr ","] ++ W ++ [dquote] ++ ws
                  ++ [chr "<"] ++ U ++ [chr ">"] ++ []) ++ post)) = true).
      { apply rmatch_spec.
        exists ([] ++ [dquote] ++ V ++ [chr ","] ++ W ++ [dquote] ++ ws
                  ++ [chr "<"] ++ U ++ [chr ">"] ++ []), post.
        split; [ reflexivity | ].
        unfold RE_QUOTED_NAME_ANG, plus, star, c. cbn [seq den].
        exists [], ([dquote] ++ V ++ [chr ","] ++ W ++ [dquote] ++ ws
                      ++ [chr "<"] ++ U ++ [chr ">"] ++ []).
        split; [ reflexivity | ]. split; [ auto | ].
        exists [dquote], (V ++ [chr ","] ++ W ++ [dquote] ++ ws
                            ++ [chr "<"] ++ U ++ [chr ">"] ++ []).
        split; [ reflexivity | ].
        split; [ exists dquote; split; reflexivity | ].
        exists [], (V ++ [chr ","] ++ W ++ [dquote] ++ ws
                      ++ [chr "<"] ++ U ++ [chr ">"] ++ []).
        split; [ reflexivity | ]. split; [ split; [ simpl; lia | reflexivity ] | ].
        exists (V ++ [chr ","] ++ W), ([dquote] ++ ws
                      ++ [chr "<"] ++ U ++ [chr ">"] ++ []).
        split; [ rewrite <- !app_assoc; reflexivity | ].
        split.
        { split; [ rewrite length_app; lia | ].
          rewrite !forallb_app, (not_qclg_text V AX), (not_qclg_text W AY).
          reflexivity. }
        exists [], ([dquote] ++ ws ++ [chr "<"] ++ U ++ [chr ">"] ++ []).
        split; [ reflexivity | ]. split; [ split; [ simpl; lia | reflexivity ] | ].
        exists [dquote], (ws ++ [chr "<"] ++ U ++ [chr ">"] ++ []).
        split; [ reflexivity | ].
        split; [ exists dquote; split; reflexivity | ].
        exists ws, ([chr "<"] ++ U ++ [chr ">"] ++ []).
        split; [ reflexivity | ]. split; [ split; [ lia | exact Aws ] | ].
        exists [chr "<"], (U ++ [chr ">"] ++ []).
        split; [ reflexivity | ].
        split; [ exists (chr "<"); split; reflexivity | ].
        exists U, ([chr ">"] ++ []).
        split; [ reflexivity | ]. split; [ split; assumption | ].
        exists [chr ">"], [].
        split; [ reflexivity | ].
        split; [ exists (chr ">"); split; reflexivity | ].
        split; [ reflexivity | exact Hpost ]. }
      rewrite Hm in Hq. discriminate Hq.
    + destruct V as [ | x V ]; [ simpl in LX; lia | ].
      cbn [forallb] in AX. apply andb_true_iff in AX. destruct AX as [Ax _].
      simpl. apply (not_qclg_has x Ax).
  - unfold contains. apply existsb_exists. exists dquote.
    split; [ | reflexivity ].
    apply in_or_app. left.
    apply in_or_app. right. apply in_or_app. right. apply in_or_app. right.
    apply in_or_app. right. apply in_or_app. right. apply in_or_app. left.
    left. reflexivity.
Qed.

(** X12. The category lastname_comma_firstname_angle is given only to
    senders whose cleaned text holds a double quote and does not open with
    one. *)
Lemma lastname_comma_only_unbalanced (s : option str) :
  category s = "lastname_comma_firstname_angle"%string ->
  startswith dquote (_clean s) = false /\ contains dquote (_clean s) = true.
Proof.
  unfold category, classify. intros H.
  destruct (matched (rmatch RE_QUOTED_NAME_ANG (_clean s))) eqn:Hq;
    destruct (matched (rmatch RE_LAST_COMMA_FIRST (_clean s))) eqn:Hc;
    try (apply comma_pattern_unbalanced; assumption);
    exfalso; revert H;
    repeat match goal with
           | |- context [let (_, _) := ?p in _] => destruct p
           | |- context [if ?b then _ else _] => destruct b
           end; cbn [fst]; discriminate.
Qed.

End CommaDisplay.

(** ** The entropy in exact arithmetic *)

Section Entropy.
Local Open Scope R_scope.

Lemma ln_lower (y : R) : 0 < y -> 1 - / y <= ln y.
Proof.
  intros Hy.
  assert (Hi : 0 < / y) by (apply Rinv_0_lt_compat; exact Hy).
  pose proof (exp_ineq1_le (ln (/ y))) as H.
  rewrite (exp_ln _ Hi), (ln_Rinv _ Hy) in H. lra.
Qed.

Lemma ln_2_pos : 0 < ln 2.
Proof. pose proof ln_lt_2. lra. Qed.

Lemma ln_nonpos (p : R) : 0 < p -> p <= 1 -> ln p <= 0.
Proof.
  intros H0 H1. destruct (Req_dec p 1) as [-> | Hn].
  - rewrite ln_1. lra.
  - assert (H : ln p < ln 1) by (apply ln_increasing; lra).
    rewrite ln_1 in H. lra.
Qed.

Lemma ln_neg (p : R) : 0 < p -> p < 1 -> ln p < 0.
Proof.
  intros H0 H1. assert (H : ln p < ln 1) by (apply ln_increasing; lra).
  rewrite ln_1 in H. exact H.
Qed.


Lemma freq_pos (c n : nat) : (1 <= c)%nat -> (0 < n)%nat -> 0 < freq c n.
Proof.
  intros Hc Hn. unfold freq. apply Rdiv_lt_0_compat; apply lt_0_INR; lia.
Qed.

Lemma freq_le_1 (c n : nat) : (c <= n)%nat -> (0 < n)%nat -> freq c n <= 1.
Proof.
  intros Hc Hn. unfold freq.
  assert (H0 : 0 < INR n) by (apply lt_0_INR; lia).
  apply (Rmult_le_reg_r (INR n)); [ exact H0 | ].
  unfold Rdiv. rewrite Rmult_assoc, Rinv_l, Rmult_1_r, Rmult_1_l by lra.
  apply le_INR. exact Hc.
Qed.

Lemma freq_lt_1 (c n : nat) : (c < n)%nat -> freq c n < 1.
Proof.
  intros Hc. unfold freq.
  assert (H0 : 0 < INR n) by (apply lt_0_INR; lia).
  apply (Rmult_lt_reg_r (INR n)); [ exact H0 | ].
  unfold Rdiv. rewrite Rmult_assoc, Rinv_l, Rmult_1_r, Rmult_1_l by lra.
  apply lt_INR. exact Hc.
Qed.

Lemma term_upper (p K : R) :
  0 < p -> 0 < K -> p - / K <= p * (ln K + ln p).
Proof.
  intros Hp HK. rewrite <- ln_mult by assumption.
  assert (HKp : 0 < K * p) by (apply Rmult_lt_0_compat; assumption).
  pose proof (ln_lower (K * p) HKp) as H.
  apply (Rmult_le_compat_l p) in H; [ | lra ].
  replace (p * (1 - / (K * p))) with (p - / K) in H by (field; lra).
  exact H.
Qed.

Lemma sum_upper (l : list nat) (n : nat) (K : R) :
  Forall (fun c => (1 <= c)%nat) l -> (0 < n)%nat -> 0 < K ->
  INR (list_sum l) / INR n - INR (List.length l) / K
  <= sumR (map (fun c => freq c n * (ln K + ln (freq c n))) l).
Proof.
  intros Hl Hn HK.
  assert (H0 : 0 < INR n) by (apply lt_0_INR; lia).
  induction Hl as [ | c l Hc Hl IH ].
  - simpl. unfold Rdiv. lra.
  - change (list_sum (c :: l)) with (c + list_sum l)%nat.
    cbn [List.length map sumR]. rewrite plus_INR, S_INR.
    pose proof (term_upper (freq c n) K (freq_pos c n Hc Hn) HK) as Ht.
    unfold freq in *. unfold Rdiv in *. lra.
Qed.

Lemma sum_split (l : list nat) (n : nat) (K : R) :
  sumR (map (fun c => freq c n * (ln K + ln (freq c n))) l)
  = ln K * (INR (list_sum l) / INR n)
    + sumR (map (fun c => freq c n * ln (freq c n)) l).
Proof.
  induction l as [ | c l IH ].
  - simpl. unfold Rdiv. lra.
  - change (list_sum (c :: l)) with (c + list_sum l)%nat.
    cbn [map sumR]. rewrite IH, plus_INR. unfold freq, Rdiv. ring.
Qed.

Lemma sum_log2 (l : list nat) (n : nat) :
  sumR (map (fun c => plog2p c n) l)
  = sumR (map (fun c => freq c n * ln (freq c n)) l) / ln 2.
Proof.
  pose proof ln_2_pos as H2.
  induction l as [ | c l IH ].
  - simpl. unfold Rdiv. lra.
  - cbn [map sumR]. rewrite IH. unfold plog2p, log2R. fold (freq c n).
    unfold Rdiv. ring.
Qed.

Lemma sum_nonpos (l : list nat) (n : nat) :
  Forall (fun c => (1 <= c <= n)%nat) l ->
  sumR (map (fun c => freq c n * ln (freq c n)) l) <= 0.
Proof.
  intros Hl. induction Hl as [ | c l Hc Hl IH ]; [ simpl; lra | ].
  cbn [map sumR].
  assert (Hp : 0 < freq c n) by (apply freq_pos; lia).
  assert (H1 : freq c n <= 1) by (apply freq_le_1; lia).
  pose proof (ln_nonpos _ Hp H1) as Hln.
  assert (freq c n * ln (freq c n) <= 0) by nra.
  lra.
Qed.

Lemma sum_neg (l : list nat) (n : nat) :
  l <> [] ->
  Forall (fun c => (1 <= c < n)%nat) l ->
  sumR (map (fun c => freq c n * ln (freq c n)) l) < 0.
Proof.
  intros Hne Hl. destruct Hl as [ | c l Hc Hl ]; [ congruence | ].
  cbn [map sumR].
  assert (Hp : 0 < freq c n) by (apply freq_pos; lia).
  assert (H1 : freq c n < 1) by (apply freq_lt_1; lia).
  pose proof (ln_neg _ Hp H1) as Hln.
  assert (freq c n * ln (freq c n) < 0) by nra.
  assert (sumR (map (fun c => freq c n * ln (freq c n)) l) <= 0).
  { apply sum_nonpos. eapply Forall_impl; [ | exact Hl ].
    simpl. intros a Ha. lia. }
  lra.
Qed.

Lemma in_le_sum (l : list nat) (c : nat) :
  In c l -> (c <= list_sum l)%nat.
Proof.
  induction l as [ | a l IH ]; intros H; [ destruct H | ].
  simpl. destruct H as [-> | H]; [ lia | ]. apply IH in H. lia.
Qed.

Lemma in_lt_sum (l : list nat) (c : nat) :
  Forall (fun a => (1 <= a)%nat) l -> (2 <= List.length l)%nat ->
  In c l -> (c < list_sum l)%nat.
Proof.
  intros Hl Hlen Hc.
  destruct l as [ | a [ | b l ] ]; simpl in Hlen; try lia.
  inversion Hl as [ | ? ? Ha Hl' ]; subst.
  inversion Hl' as [ | ? ? Hb Hl'' ]; subst.
  destruct Hc as [-> | [-> | Hc]].
  - simpl. lia.
  - simpl. lia.
  - apply in_le_sum in Hc. simpl. lia.
Qed.

(** The exact entropy of a list of counts that add up to [n]. *)
Lemma counts_entropy (l : list nat) (n : nat) :
  Forall (fun c => (1 <= c)%nat) l -> list_sum l = n -> l <> [] ->
  let H := - sumR (map (fun c => plog2p c n) l) in
  0 <= H <= log2R (INR (List.length l))
  /\ ((2 <= List.length l)%nat -> 0 < H)
  /\ (List.length l = 1%nat -> H = 0).
Proof.
  intros Hl Hsum Hne H. subst H.
  pose proof ln_2_pos as H2.
  assert (Hn : (0 < n)%nat).
  { destruct l as [ | c l ]; [ congruence | ].
    inversion Hl; subst. simpl. lia. }
  assert (Hk : 0 < INR (List.length l)).
  { apply lt_0_INR. destruct l; [ congruence | simpl; lia ]. }
  assert (H0 : 0 < INR n) by (apply lt_0_INR; lia).
  rewrite sum_log2.
  pose proof (sum_upper l n (INR (List.length l)) Hl Hn Hk) as Hu.
  rewrite sum_split, Hsum in Hu.
  replace (INR n / INR n) with 1 in Hu by (field; lra).
  replace (INR (List.length l) / INR (List.length l)) with 1 in Hu
    by (field; lra).
  assert (Hb : Forall (fun c => (1 <= c <= n)%nat) l).
  { apply Forall_forall. intros c Hc. split.
    - revert c Hc. apply Forall_forall. exact Hl.
    - rewrite <- Hsum. apply in_le_sum. exact Hc. }
  pose proof (sum_nonpos l n Hb) as Hs.
  set (S := sumR (map (fun c => freq c n * ln (freq c n)) l)) in *.
  assert (Hinv : 0 < / ln 2) by (apply Rinv_0_lt_compat; exact H2).
  split; [ split | split ].
  - unfold Rdiv. nra.
  - unfold log2R, Rdiv. nra.
  - intros Hlen.
    assert (Hlt : Forall (fun c => (1 <= c < n)%nat) l).
    { apply Forall_forall. intros c Hc. split.
      - revert c Hc. apply Forall_forall. exact Hl.
      - rewrite <- Hsum. apply in_lt_sum; assumption. }
    pose proof (sum_neg l n Hne Hlt) as Hneg. fold S in Hneg.
    unfold Rdiv. nra.
  - intros Hlen. destruct l as [ | c [ | ] ]; try discriminate.
    simpl in Hsum. rewrite Nat.add_0_r in Hsum. subst c.
    subst S. simpl. unfold freq.
    replace (INR n / INR n) with 1 by (field; lra).
    rewrite ln_1. unfold Rdiv. lra.
Qed.

End Entropy.

Section CounterFacts.

Lemma char_eqb_eq (a b : char) : char_eqb a b = true <-> a = b.
Proof. apply N.eqb_eq. Qed.

Lemma char_eqb_neq (a b : char) : char_eqb a b = false <-> a <> b.
Proof. apply N.eqb_neq. Qed.

Lemma counter_add_keys (x : char) (d : list (char * nat)) :
  forall c, In c (map fst (counter_add x d)) <-> c = x \/ In c (map fst d).
Proof.
  induction d as [ | [y n] d IH ]; intros c; simpl.
  - intuition.
  - destruct (char_eqb y x) eqn:E; simpl.
    + apply char_eqb_eq in E. subst y. intuition.
    + rewrite IH. intuition.
Qed.

Lemma counter_add_nodup (x : char) (d : list (char * nat)) :
  NoDup (map fst d) -> NoDup (map fst (counter_add x d)).
Proof.
  induction d as [ | [y n] d IH ]; intros H; simpl.
  - constructor; [ intros [] | constructor ].
  - inversion H as [ | ? ? Hy Hd ]; subst.
    destruct (char_eqb y x) eqn:E; simpl.
    + constructor; assumption.
    + constructor; [ | apply IH; exact Hd ].
      rewrite counter_add_keys. intros [-> | Hin]; [ | contradiction ].
      apply char_eqb_neq in E. congruence.
Qed.

Lemma counter_add_get (x c : char) (d : list (char * nat)) :
  counter_get c (counter_add x d)
  = counter_get c d + (if char_eqb c x then 1 else 0).
Proof.
  induction d as [ | [y n] d IH ]; simpl.
  - unfold char_eqb. rewrite (N.eqb_sym x c). destruct (N.eqb c x); reflexivity.
  - destruct (char_eqb y x) eqn:E; simpl.
    + apply char_eqb_eq in E. subst y.
      unfold char_eqb. rewrite (N.eqb_sym x c).
      destruct (N.eqb c x); lia.
    + destruct (char_eqb y c) eqn:E'; [ | exact IH ].
      apply char_eqb_eq in E'. subst y. rewrite E. lia.
Qed.

Lemma counter_add_sum (x : char) (d : list (char * nat)) :
  list_sum (map snd (counter_add x d)) = S (list_sum (map snd d)).
Proof.
  induction d as [ | [y n] d IH ]; simpl; [ reflexivity | ].
  destruct (char_eqb y x); simpl; [ reflexivity | rewrite IH; lia ].
Qed.

Lemma counter_add_pos (x : char) (d : list (char * nat)) :
  Forall (fun c => 1 <= c) (map snd d) ->
  Forall (fun c => 1 <= c) (map snd (counter_add x d)).
Proof.
  induction d as [ | [y n] d IH ]; intros H; simpl.
  - repeat constructor.
  - inversion H; subst.
    destruct (char_eqb y x); simpl; constructor; auto; simpl in *; lia.
Qed.

Lemma count_snoc (c x : char) (s : str) :
  count c (s ++ [x]) = count c s + (if char_eqb c x then 1 else 0).
Proof.
  unfold count. rewrite filter_app, length_app. simpl.
  destruct (char_eqb c x); reflexivity.
Qed.

Lemma counter_fold (s : str) :
  forall d,
    NoDup (map fst d) -> Forall (fun c => 1 <= c) (map snd d) ->
    let d' := fold_left (fun d x => counter_add x d) s d in
    NoDup (map fst d')
    /\ Forall (fun c => 1 <= c) (map snd d')
    /\ list_sum (map snd d') = List.length s + list_sum (map snd d)
    /\ (forall c, In c (map fst d') <-> In c s \/ In c (map fst d))
    /\ (forall c, counter_get c d' = counter_get c d + count c s).
Proof.
  induction s as [ | x s IH ]; intros d Hn Hp; simpl.
  - repeat split; auto; try tauto.
  - destruct (IH (counter_add x d) (counter_add_nodup x d Hn)
                (counter_add_pos x d Hp)) as (H1 & H2 & H3 & H4 & H5).
    repeat split; auto.
    + rewrite H3, counter_add_sum. lia.
    + intros H. apply H4 in H. rewrite counter_add_keys in H.
      destruct H as [H | [-> | H]]; auto.
    + intros H. apply H4. rewrite counter_add_keys.
      destruct H as [[-> | H] | H]; auto.
    + intros c. rewrite H5, counter_add_get.
      unfold count. simpl. destruct (char_eqb c x); simpl; lia.
Qed.

Lemma counter_get_in (d : list (char * nat)) (c : char) (n : nat) :
  NoDup (map fst d) -> In (c, n) d -> counter_get c d = n.
Proof.
  induction d as [ | [y m] d IH ]; intros Hn Hin; [ destruct Hin | ].
  inversion Hn as [ | ? ? Hy Hd ]; subst. simpl.
  destruct Hin as [E | Hin].
  - injection E as -> ->. unfold char_eqb. rewrite N.eqb_refl. reflexivity.
  - destruct (char_eqb y c) eqn:E; [ | apply IH; assumption ].
    apply char_eqb_eq in E. subst y. exfalso. apply Hy.
    apply in_map_iff. exists (c, n). auto.
Qed.

Lemma Counter_spec (s : str) :
  NoDup (map fst (Counter s))
  /\ Forall (fun c => 1 <= c) (map snd (Counter s))
  /\ list_sum (map snd (Counter s)) = List.length s
  /\ (forall c, In c (map fst (Counter s)) <-> In c s)
  /\ (forall p, In p (Counter s) -> snd p = count (fst p) s).
Proof.
  destruct (counter_fold s [] (NoDup_nil _) (Forall_nil _))
    as (H1 & H2 & H3 & H4 & H5).
  fold (Counter s) in *.
  repeat split; auto.
  - simpl in H3. lia.
  - intros H. apply H4 in H. destruct H as [H | []]. exact H.
  - intros H. apply H4. auto.
  - intros [c n] Hin. simpl.
    rewrite <- (counter_get_in (Counter s) c n H1 Hin), H5. reflexivity.
Qed.

Lemma distinct_identical (s : str) :
  distinct s <= 1 <-> (forall a b, In a s -> In b s -> a = b).
Proof.
  destruct (Counter_spec s) as (Hn & _ & _ & Hk & _).
  unfold distinct. rewrite <- (length_map fst).
  split.
  - intros Hlen a b Ha Hb. apply Hk in Ha, Hb.
    destruct (map fst (Counter s)) as [ | k [ | k' l ] ];
      simpl in *; try lia; intuition congruence.
  - intros Hall.
    destruct (map fst (Counter s)) as [ | k [ | k' l ] ] eqn:E;
      simpl; try lia.
    exfalso.
    assert (Ek : k = k').
    { apply Hall; apply Hk; simpl; auto. }
    subst k'. inversion Hn as [ | ? ? Hnot _ ]; subst.
    apply Hnot. left. reflexivity.
Qed.

End CounterFacts.

Section ExactEntropy.
Local Open Scope R_scope.

Lemma entropy_formula (s : str) :
  exact (_shannon_entropy s)
  = - sumR (map (fun p => plog2p (count (fst p) s) (List.length s))
              (Counter s)).
Proof.
  destruct (Counter_spec s) as (_ & _ & _ & _ & Hc).
  unfold _shannon_entropy. destruct s as [ | x t ].
  - simpl. lra.
  - cbn [nonempty negb exact]. rewrite map_map. f_equal. f_equal.
    apply map_ext_in. intros p Hp. rewrite (Hc p Hp). reflexivity.
Qed.

(** Read in exact arithmetic, the entropy of a string is the sum of
    -p*log2(p) over the frequencies p of its distinct characters; it is 0
    exactly when all the characters are the same (or there is none), and
    with two or more distinct characters it is positive and at most log2 of
    their number. *)
Theorem shannon_entropy_exact (s : str) :
  exact (_shannon_entropy s)
  = - sumR (map (fun p => plog2p (count (fst p) s) (List.length s))
              (Counter s))
  /\ NoDup (map fst (Counter s))
  /\ (forall c, In c (map fst (Counter s)) <-> In c s)
  /\ 0 <= exact (_shannon_entropy s)
  /\ (exact (_shannon_entropy s) = 0 <->
      (forall a b, In a s -> In b s -> a = b))
  /\ ((2 <= distinct s)%nat ->
      0 < exact (_shannon_entropy s) <= log2R (INR (distinct s))).
Proof.
  destruct (Counter_spec s) as (Hn & Hp & Hs & Hk & Hc).
  split; [ apply entropy_formula | ].
  split; [ exact Hn | ]. split; [ exact Hk | ].
  destruct s as [ | x t ].
  - simpl. repeat split; try lra.
    + intros _ a b [].
    + unfold distinct in H. simpl in H. lia.
    + unfold distinct in H. simpl in H. lia.
  - assert (Hne : map snd (Counter (x :: t)) <> []).
    { intros E. assert (Hx : In x (map fst (Counter (x :: t))))
        by (apply Hk; left; reflexivity).
      destruct (Counter (x :: t)); [ destruct Hx | discriminate E ]. }
    pose proof (counts_entropy (map snd (Counter (x :: t)))
                  (List.length (x :: t)) Hp Hs Hne) as (Hb & Hpos & Hz).
    rewrite length_map in Hb, Hpos, Hz. fold (distinct (x :: t)) in *.
    change (exact (_shannon_entropy (x :: t)))
      with (- sumR (map (fun cnt => plog2p cnt (List.length (x :: t)))
                      (map snd (Counter (x :: t))))).
    split; [ apply Hb | ]. split.
    + rewrite <- distinct_identical. split.
      * intros E. destruct (le_lt_dec (distinct (x :: t)) 1) as [Hle | Hgt];
          [ exact Hle | ].
        apply Hpos in Hgt. lra.
      * intros Hle. apply Hz.
        assert (1 <= distinct (x :: t))%nat.
        { unfold distinct. rewrite <- (length_map snd).
          destruct (map snd (Counter (x :: t))); [ congruence | simpl; lia ]. }
        lia.
    + intros H2. split; [ apply Hpos; exact H2 | apply Hb ].
Qed.

End ExactEntropy.

(** ** Scenarios *)

(** Scenario A: a bare address. *)
Lemma scenario_A :
  category (Some (lit "alice@example.org")) = "mail_only"%string
  /\ getitem "is_mail_only" (snd (classify (Some (lit "alice@example.org"))))
     = Some 1%Z
  /\ local_domain (located_email (_clean (Some (lit "alice@example.org"))))
     = (lit "alice", lit "example.org")
  /\ record_get "email_local_len"
       (features ascii_db (Some (lit "alice@example.org"))) = Int 5
  /\ record_get "email_domain_len"
       (features ascii_db (Some (lit "alice@example.org"))) = Int 11
  /\ record_get "email_domain_is_free"
       (features ascii_db (Some (lit "alice@example.org"))) = Int 0.
Proof. repeat split; vm_compute; reflexivity. Qed.

(** Scenario B: a name before an angle address. *)
Lemma scenario_B :
  category (Some (lit "John Smith <john.smith@gmail.com>"))
  = "lastname_firstname_angle"%string
  /\ getitem "is_name_angle"
       (snd (classify (Some (lit "John Smith <john.smith@gmail.com>"))))
     = Some 1%Z
  /\ local_domain
       (located_email (_clean (Some (lit "John Smith <john.smith@gmail.com>"))))
     = (lit "john.smith", lit "gmail.com")
  /\ record_get "email_local_has_dot"
       (features ascii_db (Some (lit "John Smith <john.smith@gmail.com>")))
     = Int 1
  /\ record_get "email_domain_is_free"
       (features ascii_db (Some (lit "John Smith <john.smith@gmail.com>")))
     = Int 1.
Proof. repeat split; vm_compute; reflexivity. Qed.

(** Scenario D: the null and the empty sender. *)
Lemma scenario_D :
  classify None = classify (Some [])
  /\ category None = "other"%string
  /\ getitem "is_other" (snd (classify None)) = Some 1%Z
  /\ features ascii_db None = ZERO_ROW
  /\ features ascii_db (Some []) = ZERO_ROW.
Proof. repeat split; vm_compute; reflexivity. Qed.

(** * Further properties *)

(** ** What cleaning does to a sender *)

Section CleanedText.

Lemma space_32 : isspace 32%N = true.
Proof. reflexivity. Qed.

Lemma norm_spaced_ok (s : str) : forall ph, spaced_ok (norm ph s) = true.
Proof.
  induction s as [ | x t IH ]; intros ph; [ reflexivity | ].
  cbn [norm]. destruct (isspace x) eqn:Hx; [ apply IH | ].
  destruct ph; cbn [spaced_ok]; rewrite ?space_32, Hx, IH; reflexivity.
Qed.

Lemma norm_head (s : str) :
  match norm Leading s with y :: _ => isspace y = false | [] => True end.
Proof.
  induction s as [ | x t IH ]; [ exact I | ].
  cbn [norm]. destruct (isspace x) eqn:Hx; [ exact IH | exact Hx ].
Qed.

Lemma spaced_ok_norm (t : str) : spaced_ok t = true -> norm Word t = t.
Proof.
  induction t as [ | x u IH ]; intros H; [ reflexivity | ].
  cbn [spaced_ok] in H. apply andb_true_iff in H. destruct H as [Hx Hu].
  specialize (IH Hu). cbn [norm]. destruct (isspace x) eqn:Ex.
  - apply andb_true_iff in Hx. destruct Hx as [E32 Hy].
    apply N.eqb_eq in E32. subst x.
    destruct u as [ | y w ]; [ discriminate Hy | ].
    apply negb_true_iff in Hy. cbn [norm] in IH |- *. rewrite Hy in IH |- *.
    injection IH as IH. rewrite IH. reflexivity.
  - rewrite IH. reflexivity.
Qed.

(** X1. A cleaned sender is tidy, and the tidy texts are exactly the texts
    cleaning leaves as they are. *)
Theorem clean_tidy (s : option str) :
  tidy (_clean s) = true
  /\ forall t, tidy t = true <-> _clean (Some t) = t.
Proof.
  assert (Hn : forall u, tidy (norm Leading u) = true).
  { intros u. unfold tidy. rewrite norm_spaced_ok.
    pose proof (norm_head u) as Hh.
    destruct (norm Leading u); [ reflexivity | ]. rewrite Hh. reflexivity. }
  split.
  - destruct s as [ u | ]; [ rewrite clean_norm; apply Hn | reflexivity ].
  - intros t. rewrite clean_norm. split.
    + unfold tidy. intros H. apply andb_true_iff in H. destruct H as [Hh Hs].
      destruct t as [ | x u ]; [ reflexivity | ].
      apply negb_true_iff in Hh.
      pose proof (spaced_ok_norm (x :: u) Hs) as E.
      cbn [norm] in E |- *. rewrite Hh in E |- *. exact E.
    + intros E. rewrite <- E. apply Hn.
Qed.

Lemma norm_ink (s : str) : forall ph, ink (norm ph s) = ink s.
Proof.
  induction s as [ | x t IH ]; intros ph; [ reflexivity | ].
  unfold ink in *. cbn [norm filter]. destruct (isspace x) eqn:Hx.
  - cbn [negb]. apply IH.
  - destruct ph; cbn [filter negb]; rewrite ?space_32, Hx; cbn [negb];
      rewrite IH; reflexivity.
Qed.

Lemma norm_length (s : str) :
  List.length (norm Leading s) <= List.length s
  /\ List.length (norm Word s) <= List.length s
  /\ List.length (norm Gap s) <= S (List.length s).
Proof.
  induction s as [ | x t (IHl & IHw & IHg) ]; [ simpl; lia | ].
  cbn [norm]. destruct (isspace x); simpl; lia.
Qed.

(** X2. Cleaning touches white space only: the other characters of the
    sender are all kept, in their order, and the cleaned text is never
    longer than the sender. *)
Theorem clean_keeps_ink (s : str) :
  ink (_clean (Some s)) = ink s
  /\ List.length (_clean (Some s)) <= List.length s.
Proof.
  rewrite clean_norm. split; [ apply norm_ink | apply norm_length ].
Qed.

Lemma norm_count (a : char) (s : str) :
  isspace a = false -> forall ph, count a (norm ph s) = count a s.
Proof.
  intros Ha.
  assert (H32 : char_eqb a 32%N = false).
  { destruct (char_eqb a 32%N) eqn:E; [ | reflexivity ].
    apply N.eqb_eq in E. subst a. discriminate Ha. }
  induction s as [ | x t IH ]; intros ph; [ reflexivity | ].
  cbn [norm]. destruct (isspace x) eqn:Hx.
  - rewrite IH, count_cons.
    destruct (char_eqb a x) eqn:E; [ | reflexivity ].
    apply N.eqb_eq in E. subst x. congruence.
  - destruct ph; rewrite !count_cons, ?H32, IH; reflexivity.
Qed.

(** X3. A comma and two at-signs anywhere in the sender as received, before
    any cleaning, are enough for multi_mails. *)
Theorem multi_mails_raw (s : str) :
  contains (chr ",") s = true ->
  2 <= count (chr "@") s ->
  category (Some s) = "multi_mails"%string.
Proof.
  intros Hc Ha. unfold category, classify. rewrite clean_norm.
  assert (Ec : count (chr ",") (norm Leading s) = count (chr ",") s)
    by (apply norm_count; reflexivity).
  assert (Ea : count (chr "@") (norm Leading s) = count (chr "@") s)
    by (apply norm_count; reflexivity).
  assert (Hc' : contains (chr ",") (norm Leading s) = true)
    by (rewrite contains_count, Ec, <- contains_count; exact Hc).
  rewrite (contains_nonempty _ _ Hc'), Hc', Ea.
  apply Nat.leb_le in Ha. rewrite Ha. reflexivity.
Qed.

Lemma multi_mails_raw_witness :
  category (Some (lit "  a@b.com ,   c@d.com ")) = "multi_mails"%string.
Proof.
  apply (multi_mails_raw (lit "  a@b.com ,   c@d.com ")).
  - vm_compute. reflexivity.
  - vm_compute. lia.
Defined.

Lemma norm_blank (s : str) :
  forallb isspace s = true <-> norm Leading s = [].
Proof.
  induction s as [ | x t IH ]; [ simpl; tauto | ].
  cbn [forallb norm]. destruct (isspace x); [ exact IH | ].
  simpl. split; discriminate.
Qed.

Lemma norm_pad_left (a s : str) :
  forallb isspace a = true -> norm Leading (a ++ s) = norm Leading s.
Proof.
  induction a as [ | x a IH ]; intros H; [ reflexivity | ].
  cbn [forallb] in H. apply andb_true_iff in H. destruct H as [Hx Ha].
  simpl app. cbn [norm]. rewrite Hx. apply IH. exact Ha.
Qed.

Lemma norm_blank_any (b : str) :
  forallb isspace b = true -> forall ph, norm ph b = [].
Proof.
  induction b as [ | x b IH ]; intros H ph; [ reflexivity | ].
  cbn [forallb] in H. apply andb_true_iff in H. destruct H as [Hx Hb].
  cbn [norm]. rewrite Hx. apply IH. exact Hb.
Qed.

Lemma norm_pad_right (b s : str) :
  forallb isspace b = true -> forall ph, norm ph (s ++ b) = norm ph s.
Proof.
  intros Hb. induction s as [ | x t IH ]; intros ph.
  - simpl app. apply norm_blank_any. exact Hb.
  - simpl app. cbn [norm]. destruct (isspace x); [ apply IH | ].
    destruct ph; rewrite IH; reflexivity.
Qed.

(** X4. A sender is blank (null, empty or white space only) exactly when
    its cleaned text is empty, and then it is classified like the null
    sender, in category other, with every feature at zero. *)
Theorem blank_sender (db : unicode_db) (s : str) :
  (forallb isspace s = true <-> _clean (Some s) = [])
  /\ (forallb isspace s = true ->
      classify (Some s) = classify None
      /\ category (Some s) = "other"%string
      /\ features db (Some s) = ZERO_ROW).
Proof.
  rewrite clean_norm. split; [ apply norm_blank | ].
  intros H. apply norm_blank in H.
  assert (E : _clean (Some s) = []) by (rewrite clean_norm; exact H).
  unfold category, classify, features. rewrite E. repeat split.
Qed.

Lemma blank_sender_witness :
  category (Some (lit "   ")) = "other"%string.
Proof.
  apply (blank_sender ascii_db (lit "   ")). reflexivity.
Defined.

(** X5. White space around a sender does not count: padded on either side
    with white space of any kind, it gets the same category, the same flags
    and the same features. *)
Theorem padding_ignored (db : unicode_db) (a b s : str) :
  forallb isspace a = true ->
  forallb isspace b = true ->
  classify (Some (a ++ s ++ b)) = classify (Some s)
  /\ features db (Some (a ++ s ++ b)) = features db (Some s).
Proof.
  intros Ha Hb.
  assert (E : _clean (Some (a ++ s ++ b)) = _clean (Some s)).
  { rewrite !clean_norm, (norm_pad_left a (s ++ b) Ha).
    apply norm_pad_right. exact Hb. }
  unfold classify, features. rewrite E. split; reflexivity.
Qed.

Lemma padding_ignored_witness :
  classify (Some (lit "  " ++ lit "a@b.com" ++ lit " "))
  = classify (Some (lit "a@b.com")).
Proof.
  apply (padding_ignored ascii_db (lit "  ") (lit " ") (lit "a@b.com"));
    reflexivity.
Defined.

End CleanedText.

(** ** What the matcher captures *)

Section Captures.
Import Re.

Lemma exec_sound_groups (r : regex) :
  forall st st',
    In st' (exec r st) ->
    exists w g, rest st = w ++ rest st'
                /\ pos st' = pos st + List.length w
                /\ groups st' = g ++ groups st
                /\ deng r (pos st) w (rest st') g.
Proof.
  induction r as [ | k | r1 IH1 r2 IH2 | r1 IH1 r2 IH2 | gr lo k | n r1 IH1 | | ];
    intros st st' H; simpl in H.
  - destruct H as [<- | []]. exists [], []. simpl. repeat split; auto.
  - destruct (rest st) as [ | x t ] eqn:Hr; [ destruct H | ].
    destruct (cls_has k x) eqn:Hx; [ | destruct H ].
    destruct H as [<- | []]. exists [x], []. simpl.
    repeat split; try lia. exists x. auto.
  - apply in_flat_map in H. destruct H as (m & H1 & H2).
    apply IH1 in H1. apply IH2 in H2.
    destruct H1 as (w1 & g1 & E1 & P1 & G1 & D1).
    destruct H2 as (w2 & g2 & E2 & P2 & G2 & D2).
    exists (w1 ++ w2), (g2 ++ g1).
    rewrite E1, E2, P2, P1, G2, G1, <- !app_assoc, length_app.
    repeat split; try lia.
    simpl. exists w1, w2, g1, g2. rewrite <- E2, <- P1. auto.
  - apply in_app_or in H. destruct H as [H | H].
    + apply IH1 in H. destruct H as (w & g & E & P & G & D).
      exists w, g. simpl. auto.
    + apply IH2 in H. destruct H as (w & g & E & P & G & D).
      exists w, g. simpl. auto.
  - assert (H' : In st' (skipn lo (runs k (pos st) (rest st) (groups st)))).
    { destruct gr; [ apply in_rev in H | ]; exact H. }
    apply in_skipn_runs in H'. destruct H' as (w & E & Hall & Hl & P & G).
    exists w, []. simpl. repeat split; auto.
  - apply in_map_iff in H. destruct H as (m & <- & H).
    apply IH1 in H. destruct H as (w & g & E & P & G & D).
    exists w, ((n, w) :: g). cbn [rest pos groups deng].
    repeat split; auto.
    + rewrite G, P, E.
      replace (pos st + List.length w - pos st) with (List.length w) by lia.
      rewrite firstn_app, firstn_all, Nat.sub_diag. simpl.
      rewrite app_nil_r. reflexivity.
    + exists g. auto.
  - destruct (Nat.eqb (pos st) 0) eqn:H0; [ | destruct H ].
    destruct H as [<- | []]. apply Nat.eqb_eq in H0.
    exists [], []. simpl. repeat split; auto.
  - destruct (rest st) as [ | x [ | y t ] ] eqn:Hr.
    + destruct H as [<- | []]. exists [], []. simpl. rewrite Hr.
      repeat split; auto.
    + destruct (char_eqb x 10%N) eqn:Hx; [ | destruct H ].
      destruct H as [<- | []]. apply N.eqb_eq in Hx. subst x.
      exists [], []. simpl. rewrite Hr. repeat split; auto.
    + destruct H.
Qed.

Lemma match_at_groups (r : regex) (i : nat) (s : str) (m : match_obj) :
  match_at r i s = Some m ->
  exists w post, s = w ++ post /\ deng r i w post (m_groups m)
                 /\ m_start m = i /\ m_len m = List.length w.
Proof.
  unfold match_at.
  destruct (exec r (MState i s [])) as [ | st l ] eqn:He; [ discriminate | ].
  intros E. injection E as <-.
  destruct (exec_sound_groups r (MState i s []) st) as (w & g & E & P & G & D).
  { rewrite He. left. reflexivity. }
  cbn [rest pos groups] in *. rewrite app_nil_r in G.
  exists w, (rest st). cbn [m_groups m_start m_len].
  rewrite G, P. repeat split; auto. lia.
Qed.

Lemma search_from_groups (r : regex) (s : str) :
  forall i m,
    search_from r i s = Some m ->
    exists pre w post, s = pre ++ w ++ post
                       /\ deng r (i + List.length pre) w post (m_groups m).
Proof.
  induction s as [ | x t IH ]; intros i m H; simpl in H.
  - destruct (match_at r i []) as [ m' | ] eqn:Hm; [ | discriminate ].
    injection H as <-. apply match_at_groups in Hm.
    destruct Hm as (w & post & E & D & _).
    exists [], w, post. simpl. rewrite Nat.add_0_r. auto.
  - destruct (match_at r i (x :: t)) as [ m' | ] eqn:Hm.
    + injection H as <-. apply match_at_groups in Hm.
      destruct Hm as (w & post & E & D & _).
      exists [], w, post. simpl. rewrite Nat.add_0_r. auto.
    + apply IH in H. destruct H as (pre & w & post & E & D).
      exists (x :: pre), w, post. simpl. rewrite E.
      split; [ reflexivity | ].
      replace (i + S (List.length pre)) with (S i + List.length pre) by lia.
      exact D.
Qed.

(** A search that can match at the start returns the match found there. *)
Lemma search_at_start (r : regex) (s : str) :
  matched (match_at r 0 s) = true -> search r s = match_at r 0 s.
Proof.
  unfold search. destruct s as [ | x t ]; simpl;
    destruct (match_at r 0 _); [ reflexivity | discriminate
                               | reflexivity | discriminate ].
Qed.

End Captures.

(** ** The angle address *)

Section AngleAddress.
Import Re.

Ltac deng_next D w g H :=
  let r := fresh "r" in
  let gr := fresh "gr" in
  destruct D as (w & r & g & gr & -> & -> & H & D).

Lemma not_gt_text (w : str) :
  forallb (cls_has NOT_GT) w = true <-> contains (chr ">") w = false.
Proof.
  induction w as [ | x w IH ]; [ simpl; tauto | ].
  cbn [forallb contains existsb]. fold (contains (chr ">") w).
  rewrite andb_true_iff, orb_false_iff, IH.
  unfold NOT_GT. cbn [cls_has existsb item_has].
  unfold char_eqb. rewrite (N.eqb_sym (chr ">") x).
  destruct (N.eqb x (chr ">")); simpl; intuition congruence.
Qed.

Lemma spaces_not_gt (w : str) :
  forallb isspace w = true -> contains (chr ">") w = false.
Proof.
  induction w as [ | x w IH ]; [ reflexivity | ].
  cbn [forallb contains existsb]. fold (contains (chr ">") w).
  intros H. apply andb_true_iff in H. destruct H as [Hx Hw].
  rewrite (IH Hw), orb_false_r.
  destruct (char_eqb (chr ">") x) eqn:E; [ | reflexivity ].
  apply N.eqb_eq in E. subst x. discriminate Hx.
Qed.

Lemma contains_app (a : char) (u v : str) :
  contains a (u ++ v) = (contains a u || contains a v)%bool.
Proof. unfold contains. apply existsb_app. Qed.

Lemma contains_cons (a x : char) (u : str) :
  contains a (x :: u) = (char_eqb a x || contains a u)%bool.
Proof. reflexivity. Qed.

Lemma split_at_first (a : char) (u : str) :
  forall v u' v',
    contains a u = false -> contains a u' = false ->
    u ++ a :: v = u' ++ a :: v' -> u = u' /\ v = v'.
Proof.
  induction u as [ | x u IH ]; intros v u' v' Hu Hu' E.
  - destruct u' as [ | y u' ]; simpl in E.
    + injection E as E. auto.
    + injection E as <- _. cbn [contains existsb] in Hu'.
      unfold char_eqb in Hu'. rewrite N.eqb_refl in Hu'. discriminate Hu'.
  - cbn [contains existsb] in Hu. fold (contains a u) in Hu.
    apply orb_false_iff in Hu. destruct Hu as [Hx Hu].
    destruct u' as [ | y u' ]; simpl in E.
    + injection E as -> _. unfold char_eqb in Hx.
      rewrite N.eqb_refl in Hx. discriminate Hx.
    + injection E as <- E.
      cbn [contains existsb] in Hu'. fold (contains a u') in Hu'.
      apply orb_false_iff in Hu'. destruct Hu' as [_ Hu'].
      destruct (IH v u' v' Hu Hu' E) as [-> ->]. auto.
Qed.

(** The shape of a sender the angle pattern finds, and the two groups. *)
Lemma display_angle_groups (t : str) (m : match_obj) :
  search RE_DISPLAY_ANGLE t = Some m ->
  exists d body tail,
    t = d ++ chr "<" :: body ++ chr ">" :: tail
    /\ forallb isspace tail = true
    /\ contains (chr ">") body = false
    /\ contains (chr "@") body = true
    /\ group "disp" (m_groups m) = d
    /\ group "addr" (m_groups m) = chr "<" :: body ++ [chr ">"].
Proof.
  intros H. apply search_from_groups in H.
  destruct H as (pre & w & post & -> & D).
  unfold RE_DISPLAY_ANGLE, plus, star, lazy_star, c in D. cbn [seq deng] in D.
  destruct D as (w0 & r0 & g0 & gr0 & -> & Eg & H0 & D).
  deng_next D d gd Hd. deng_next D a ga Ha. deng_next D ws gw Hw.
  destruct D as [[-> Hpost] ->].
  destruct H0 as [[-> Hpre] ->]. simpl in Hpre.
  apply length_zero_iff_nil in Hpre. subst pre.
  destruct Hd as (gd' & [_ ->] & ->).
  destruct Hw as [[_ Hw] ->]. rewrite forallb_ws in Hw.
  destruct Ha as (ga' & Ha & ->).
  destruct Ha as (a0 & ra & h0 & hr & -> & -> & Hp0 & Ha).
  deng_next Ha ws1 h1 Hp1. deng_next Ha X h2 Hp2. deng_next Ha at1 h3 Hp3.
  deng_next Ha Y h4 Hp4. deng_next Ha ws2 h5 Hp5.
  destruct Hp0 as [(x0 & -> & E0) ->]. apply lit_has in E0. subst x0.
  destruct Hp1 as [[_ Hp1] ->]. rewrite forallb_ws in Hp1.
  destruct Hp2 as [[L2 Hp2] ->].
  destruct Hp3 as [(x3 & -> & E3) ->]. apply lit_has in E3. subst x3.
  destruct Hp4 as [[L4 Hp4] ->].
  destruct Hp5 as [[_ Hp5] ->]. rewrite forallb_ws in Hp5.
  destruct Ha as [(x6 & -> & E6) ->]. apply lit_has in E6. subst x6.
  exists d, (ws1 ++ X ++ chr "@" :: Y ++ ws2), (ws ++ post).
  repeat split.
  - simpl. rewrite ?app_nil_r. repeat (rewrite <- app_assoc; simpl).
    reflexivity.
  - rewrite forallb_app, Hw. apply eos_spaces. exact Hpost.
  - rewrite !contains_app, contains_cons, contains_app.
    rewrite (spaces_not_gt ws1 Hp1), (spaces_not_gt ws2 Hp5).
    apply not_gt_text in Hp2, Hp4. rewrite Hp2, Hp4. reflexivity.
  - rewrite !contains_app, contains_cons.
    unfold char_eqb at 1. rewrite N.eqb_refl.
    rewrite !orb_true_r. reflexivity.
  - rewrite Eg. reflexivity.
  - rewrite Eg. simpl. rewrite ?app_nil_r.
    repeat (rewrite <- app_assoc; simpl). reflexivity.
Qed.

End AngleAddress.

Section AngleSplit.
Import Re.

Ltac deng_next D w g H :=
  let r := fresh "r" in
  let gr := fresh "gr" in
  destruct D as (w & r & g & gr & -> & -> & H & D).

Lemma lstrip_all (p : char -> bool) (w : str) :
  forallb p w = true -> lstrip_by p w = [].
Proof.
  induction w as [ | x w IH ]; [ reflexivity | ].
  simpl. intros H. apply andb_true_iff in H. destruct H as [-> Hw]. auto.
Qed.

Lemma forallb_rev (p : char -> bool) (w : str) :
  forallb p w = true -> forallb p (rev w) = true.
Proof.
  intros H. apply forallb_forall. intros x Hx. apply in_rev in Hx.
  revert x Hx. apply forallb_forall. exact H.
Qed.

Lemma rstrip_app_all (p : char -> bool) (u b : str) :
  forallb p b = true -> rstrip_by p (u ++ b) = rstrip_by p u.
Proof.
  intros Hb. unfold rstrip_by.
  rewrite rev_app_distr, lstrip_app, (forallb_rev p b Hb). reflexivity.
Qed.

Lemma strip_pad (a g b : str) :
  forallb isspace a = true -> forallb isspace b = true ->
  strip (a ++ g ++ b) = strip g.
Proof.
  intros Ha Hb. unfold strip, strip_by.
  rewrite lstrip_app, Ha, lstrip_app.
  destruct (forallb isspace g) eqn:Hg.
  - rewrite (lstrip_all isspace b Hb), (lstrip_all isspace g Hg). reflexivity.
  - apply rstrip_app_all. exact Hb.
Qed.

Lemma lstrip_keeps (p : char -> bool) (x : char) (u : str) :
  In x u -> p x = false -> In x (lstrip_by p u).
Proof.
  induction u as [ | y u IH ]; intros Hin Hx; [ destruct Hin | ].
  simpl. destruct (p y) eqn:Hy.
  - destruct Hin as [-> | Hin]; [ congruence | auto ].
  - exact Hin.
Qed.

Lemma strip_keeps (a : char) (u : str) :
  contains a u = true -> isspace a = false -> contains a (strip u) = true.
Proof.
  unfold contains. intros H Ha. apply existsb_exists in H.
  destruct H as (x & Hin & E). apply N.eqb_eq in E. subst x.
  apply existsb_exists. exists a. split; [ | apply N.eqb_refl ].
  unfold strip, strip_by, rstrip_by. apply in_rev.
  rewrite rev_involutive. apply lstrip_keeps; [ | exact Ha ].
  apply in_rev. rewrite rev_involutive.
  apply lstrip_keeps; assumption.
Qed.

(** The search inside the angle group always succeeds, and its group is
    the inner text up to white space at both ends. *)
Lemma angle_inner_found (body : str) :
  body <> [] -> contains (chr ">") body = false ->
  exists m2 wsA g1 wsB,
    search RE_ANGLE_INNER (chr "<" :: body ++ [chr ">"]) = Some m2
    /\ group "1" (m_groups m2) = g1
    /\ body = wsA ++ g1 ++ wsB
    /\ forallb isspace wsA = true /\ forallb isspace wsB = true.
Proof.
  intros Hne Hgt.
  assert (Hm : matched (match_at RE_ANGLE_INNER 0
                          (chr "<" :: body ++ [chr ">"])) = true).
  { apply match_at_spec. exists (chr "<" :: body ++ [chr ">"]), [].
    split; [ rewrite app_nil_r; reflexivity | ].
    unfold RE_ANGLE_INNER, plus, star, c. cbn [seq den].
    exists [chr "<"], (body ++ [chr ">"]).
    split; [ reflexivity | ]. split; [ exists (chr "<"); auto | ].
    exists [], (body ++ [chr ">"]).
    split; [ reflexivity | ]. split; [ split; [ simpl; lia | reflexivity ] | ].
    exists body, [chr ">"].
    split; [ reflexivity | ]. split.
    { split; [ destruct body; [ congruence | simpl; lia ] | ].
      apply not_gt_text. exact Hgt. }
    exists [], [chr ">"].
    split; [ reflexivity | ]. split; [ split; [ simpl; lia | reflexivity ] | ].
    exists (chr ">"). auto. }
  rewrite (search_at_start _ _ Hm).
  destruct (match_at RE_ANGLE_INNER 0 (chr "<" :: body ++ [chr ">"]))
    as [ m2 | ] eqn:E2; [ | discriminate Hm ].
  apply match_at_groups in E2. destruct E2 as (w & post & E & D & _).
  unfold RE_ANGLE_INNER, plus, star, c in D. cbn [seq deng] in D.
  destruct D as (w0 & r0 & g0 & gr0 & -> & Eg & H0 & D).
  deng_next D wsA ga Hwa. deng_next D g1 gg Hg. deng_next D wsB gb Hwb.
  destruct H0 as [(x0 & -> & E0) ->]. apply lit_has in E0. subst x0.
  destruct Hwa as [[_ Hwa] ->]. rewrite forallb_ws in Hwa.
  destruct Hg as (gg' & [[Lg Hg] ->] & ->).
  destruct Hwb as [[_ Hwb] ->]. rewrite forallb_ws in Hwb.
  destruct D as [(x1 & -> & E1) ->]. apply lit_has in E1. subst x1.
  exists m2, wsA, g1, wsB.
  split; [ reflexivity | ]. split; [ rewrite Eg; reflexivity | ].
  split; [ | auto ].
  simpl in E. injection E as E.
  assert (E' : body ++ chr ">" :: [] = (wsA ++ g1 ++ wsB) ++ chr ">" :: post).
  { etransitivity; [ exact E | ].
    repeat (rewrite <- app_assoc; simpl). reflexivity. }
  apply split_at_first in E'; [ apply E' | exact Hgt | ].
  rewrite !contains_app, (spaces_not_gt wsA Hwa), (spaces_not_gt wsB Hwb).
  apply not_gt_text in Hg. rewrite Hg. reflexivity.
Qed.

Lemma contains_true_nonempty (a : char) (u : str) :
  contains a u = true -> u <> [].
Proof. destruct u; [ discriminate | discriminate ]. Qed.

Lemma split_display_angle_cases (t : str) :
  (Re.search RE_DISPLAY_ANGLE t = None /\ _split_display_angle t = ([], []))
  \/ exists d body tail,
       t = d ++ chr "<" :: body ++ chr ">" :: tail
       /\ forallb isspace tail = true
       /\ contains (chr ">") body = false
       /\ contains (chr "@") body = true
       /\ _split_display_angle t
          = (strip_chars (dquote :: lit " ") (strip d), strip body)
       /\ contains (chr "@") (strip body) = true.
Proof.
  destruct (search RE_DISPLAY_ANGLE t) as [ m | ] eqn:Hs.
  - right. destruct (display_angle_groups t m Hs)
      as (d & body & tail & E & Ht & Hgt & Hat & Gd & Ga).
    exists d, body, tail.
    destruct (angle_inner_found body (contains_true_nonempty _ _ Hat) Hgt)
      as (m2 & wsA & g1 & wsB & S2 & G1 & Eb & Ha & Hb).
    repeat split; auto.
    + unfold _split_display_angle. rewrite Hs.
      destruct t as [ | x t' ]; [ destruct d; discriminate E | ].
      cbn [nonempty negb]. rewrite Gd, Ga, S2, G1.
      f_equal. rewrite Eb. symmetry. apply strip_pad; assumption.
    + apply strip_keeps; [ exact Hat | reflexivity ].
  - left. split; [ reflexivity | ].
    unfold _split_display_angle. rewrite Hs.
    destruct (negb (nonempty t)); reflexivity.
Qed.

(** X6. [_split_display_angle] either finds nothing and returns two empty
    strings, or the sender ends, up to white space, with a group [<body>]
    whose body has no [>] and holds an at-sign; then the address returned
    is the body without the white space around it, it holds an at-sign,
    and the display returned is the text before the group without the white
    space, spaces and double quotes around it. *)
Theorem split_display_angle_spec (t : str) :
  (Re.search RE_DISPLAY_ANGLE t = None /\ _split_display_angle t = ([], []))
  \/ exists d body tail,
       t = d ++ chr "<" :: body ++ chr ">" :: tail
       /\ forallb isspace tail = true
       /\ contains (chr ">") body = false
       /\ contains (chr "@") body = true
       /\ _split_display_angle t
          = (strip_chars (dquote :: lit " ") (strip d), strip body)
       /\ contains (chr "@") (strip body) = true.
Proof. exact (split_display_angle_cases t). Qed.

(** X7. On the angle group the outer pattern captured, the inner search
    [<\s*([^>]+)\s*>] always matches: the fallback [addr.strip()] is never
    taken. *)
Theorem angle_inner_always (t : str) (m : Re.match_obj) :
  Re.search RE_DISPLAY_ANGLE t = Some m ->
  matched (Re.search RE_ANGLE_INNER (Re.group "addr" (Re.m_groups m))) = true.
Proof.
  intros Hs. destruct (display_angle_groups t m Hs)
    as (d & body & tail & E & Ht & Hgt & Hat & Gd & Ga).
  destruct (angle_inner_found body (contains_true_nonempty _ _ Hat) Hgt)
    as (m2 & wsA & g1 & wsB & S2 & _).
  rewrite Ga, S2. reflexivity.
Qed.

Lemma angle_inner_always_witness :
  exists m,
    Re.search RE_DISPLAY_ANGLE (lit "Bob < bob@corp.org >") = Some m
    /\ matched (Re.search RE_ANGLE_INNER (Re.group "addr" (Re.m_groups m)))
       = true.
Proof.
  eexists. split; [ vm_compute; reflexivity | ].
  apply (angle_inner_always (lit "Bob < bob@corp.org >")).
  vm_compute. reflexivity.
Defined.

End AngleSplit.

(** ** The located address *)

Section LocatedAddress.

Lemma split1_spec (a : char) (e : str) :
  contains a e = true ->
  exists l d, split1 a e = (l, d) /\ e = l ++ a :: d
              /\ contains a l = false.
Proof.
  induction e as [ | x t IH ]; intros H; [ discriminate H | ].
  rewrite contains_cons in H. cbn [split1].
  destruct (char_eqb x a) eqn:E.
  - apply N.eqb_eq in E. subst x. exists [], t. auto.
  - assert (E' : char_eqb a x = false)
      by (unfold char_eqb in *; rewrite N.eqb_sym; exact E).
    rewrite E' in H. simpl in H.
    destruct (IH H) as (l & d & Es & Ee & Hl).
    exists (x :: l), d. rewrite Es, Ee, contains_cons, E', Hl. auto.
Qed.

Lemma located_has_at (t : str) :
  located_email t = [] \/ contains (chr "@") (located_email t) = true.
Proof.
  unfold located_email.
  destruct (split_display_angle_cases t)
    as [[_ E] | (d & body & tail & _ & _ & _ & _ & E & Hat)]; rewrite E.
  - cbn [nonempty negb andb].
    destruct (matched (Re.rmatch RE_EMAIL_ONLY t)) eqn:Hm; [ | auto ].
    right. rewrite contains_count, (email_only_has_at t Hm). reflexivity.
  - right. destruct (strip body); [ discriminate Hat | exact Hat ].
Qed.

(** X8. For every sender, either no address is located and every feature
    is at zero, or the located address is [local @ domain] cut at its first
    at-sign: the local part has no at-sign, and the two length features are
    the lengths of the two parts. *)
Theorem located_address_parts (db : unicode_db) (s : option str) :
  (located_email (_clean s) = [] /\ features db s = ZERO_ROW)
  \/ exists l d,
       located_email (_clean s) = l ++ chr "@" :: d
       /\ contains (chr "@") l = false
       /\ local_domain (located_email (_clean s)) = (l, d)
       /\ record_get "email_local_len" (features db s)
          = Int (Z.of_nat (List.length l))
       /\ record_get "email_domain_len" (features db s)
          = Int (Z.of_nat (List.length d)).
Proof.
  destruct (located_has_at (_clean s)) as [E | Hat].
  - left. split; [ exact E | apply features_no_email; exact E ].
  - right. destruct (split1_spec _ _ Hat) as (l & d & Es & Ee & Hl).
    exists l, d.
    assert (El : local_domain (located_email (_clean s)) = (l, d))
      by (unfold local_domain; rewrite Hat; exact Es).
    repeat split; auto; unfold features; rewrite El; reflexivity.
Qed.

End LocatedAddress.

(** ** Senders without at-sign, bare addresses, angle addresses *)

Section CategoryShapes.
Import Re.

Ltac den_next D w H :=
  let r := fresh "r" in destruct D as (w & r & -> & H & D).

Lemma in_contains (a : char) (u : str) : In a u -> contains a u = true.
Proof.
  intros H. apply existsb_exists. exists a.
  split; [ exact H | apply N.eqb_refl ].
Qed.

Lemma paren_empty_has_at (t : str) :
  matched (rmatch RE_PAREN_EMPTY t) = true -> contains (chr "@") t = true.
Proof.
  intros H. apply rmatch_spec in H. destruct H as (w & post & -> & D).
  unfold RE_PAREN_EMPTY, plus, star, c in D. cbn [seq den] in D.
  den_next D w0 H0. den_next D w1 H1. den_next D w2 H2.
  destruct H2 as (x & -> & Hx). apply lit_has in Hx. subst x.
  apply in_contains. rewrite !in_app_iff. simpl. tauto.
Qed.

Lemma paren_name_has_at (t : str) :
  matched (rmatch RE_PAREN_NAME t) = true -> contains (chr "@") t = true.
Proof.
  intros H. apply rmatch_spec in H. destruct H as (w & post & -> & D).
  unfold RE_PAREN_NAME, plus, star, c in D. cbn [seq den] in D.
  den_next D w0 H0. den_next D w1 H1. den_next D w2 H2.
  destruct H2 as (x & -> & Hx). apply lit_has in Hx. subst x.
  apply in_contains. rewrite !in_app_iff. simpl. tauto.
Qed.

Lemma no_at_not_located (t : str) :
  contains (chr "@") t = false ->
  _split_display_angle t = ([], []) /\ located_email t = [].
Proof.
  intros H.
  assert (Hs : _split_display_angle t = ([], [])).
  { destruct (split_display_angle_cases t)
      as [[_ E] | (d & body & tail & -> & _ & _ & Hat & _)]; [ exact E | ].
    rewrite contains_app, contains_cons, contains_app, Hat in H.
    rewrite !orb_true_r in H. discriminate H. }
  split; [ exact Hs | ].
  unfold located_email. rewrite Hs. cbn [nonempty negb andb].
  destruct (matched (rmatch RE_EMAIL_ONLY t)) eqn:Hm; [ | reflexivity ].
  apply email_only_has_at in Hm.
  rewrite contains_count, Hm in H. discriminate H.
Qed.

(** X9. A sender without any at-sign is given no address category: it is
    mail_with_brackets, mail_fake_domain, display_empty_angle,
    quoted_text_only or other, and all its features are at zero. *)
Theorem no_at_sender (db : unicode_db) (s : str) :
  contains (chr "@") s = false ->
  In (category (Some s)) NO_AT_CATEGORIES
  /\ features db (Some s) = ZERO_ROW.
Proof.
  intros H.
  assert (Hc : count (chr "@") (_clean (Some s)) = 0).
  { rewrite clean_norm, norm_count by reflexivity.
    rewrite contains_count in H.
    destruct (count (chr "@") s); [ reflexivity | discriminate H ]. }
  assert (Ht : contains (chr "@") (_clean (Some s)) = false)
    by (rewrite contains_count, Hc; reflexivity).
  destruct (no_at_not_located _ Ht) as [Hs Hl].
  split; [ | apply features_no_email; exact Hl ].
  assert (Hpe : matched (rmatch RE_PAREN_EMPTY (_clean (Some s))) = false).
  { destruct (matched (rmatch RE_PAREN_EMPTY (_clean (Some s)))) eqn:E;
      [ | reflexivity ].
    apply paren_empty_has_at in E. congruence. }
  assert (Hpn : matched (rmatch RE_PAREN_NAME (_clean (Some s))) = false).
  { destruct (matched (rmatch RE_PAREN_NAME (_clean (Some s)))) eqn:E;
      [ | reflexivity ].
    apply paren_name_has_at in E. congruence. }
  assert (Hm : matched (rmatch RE_EMAIL_ONLY (_clean (Some s))) = false).
  { destruct (matched (rmatch RE_EMAIL_ONLY (_clean (Some s)))) eqn:E;
      [ | reflexivity ].
    apply email_only_has_at in E. congruence. }
  unfold category, classify.
  rewrite Hc, Hpe, Hpn, Hm, Hs. cbn [Nat.leb Nat.ltb nonempty].
  rewrite andb_false_r.
  repeat match goal with
         | |- context [if ?b then _ else _] => destruct b
         end; cbn [fst]; simpl; tauto.
Qed.

Lemma no_at_sender_witness :
  In (category (Some (lit "Mailer Daemon"))) NO_AT_CATEGORIES
  /\ features ascii_db (Some (lit "Mailer Daemon")) = ZERO_ROW.
Proof.
  apply (no_at_sender ascii_db (lit "Mailer Daemon")).
  vm_compute. reflexivity.
Defined.

(** X10. A cleaned sender that is a bare address for the pattern of rule 6
    is never taken by rule 2 and never reaches the rules after rule 6: its
    category is mail_empty_parentheses, mail_parentheses_lastname or
    mail_with_brackets when the pattern of rule 3, 4 or 5 accepts it (the
    first that does), and mail_only when none of the three does. It is
    never mail_fake_domain, whatever its domain. *)
Theorem bare_address_categories (s : option str) :
  matched (rmatch RE_EMAIL_ONLY (_clean s)) = true ->
  category s
  = (if matched (rmatch RE_PAREN_EMPTY (_clean s))
     then "mail_empty_parentheses"
     else if matched (rmatch RE_PAREN_NAME (_clean s))
     then "mail_parentheses_lastname"
     else if matched (search RE_BRACKETS (_clean s))
     then "mail_with_brackets"
     else "mail_only")%string
  /\ (matched (rmatch RE_PAREN_EMPTY (_clean s)) = false ->
      matched (rmatch RE_PAREN_NAME (_clean s)) = false ->
      matched (search RE_BRACKETS (_clean s)) = false ->
      category s = "mail_only"%string)
  /\ In (category s) BARE_CATEGORIES
  /\ category s <> "mail_fake_domain"%string.
Proof.
  intros Hm.
  assert (E : category s
              = (if matched (rmatch RE_PAREN_EMPTY (_clean s))
                 then "mail_empty_parentheses"
                 else if matched (rmatch RE_PAREN_NAME (_clean s))
                 then "mail_parentheses_lastname"
                 else if matched (search RE_BRACKETS (_clean s))
                 then "mail_with_brackets"
                 else "mail_only")%string).
  { unfold category, classify.
    rewrite (email_only_has_at _ Hm), Hm.
    assert (Hne : nonempty (_clean s) = true).
    { apply email_only_has_at in Hm. destruct (_clean s);
        [ discriminate Hm | reflexivity ]. }
    rewrite Hne. cbn [Nat.leb negb]. rewrite andb_false_r.
    destruct (matched (rmatch RE_PAREN_EMPTY (_clean s))); [ reflexivity | ].
    destruct (matched (rmatch RE_PAREN_NAME (_clean s))); [ reflexivity | ].
    destruct (matched (search RE_BRACKETS (_clean s))); reflexivity. }
  split; [ exact E | ].
  split; [ intros H3 H4 H5; rewrite E, H3, H4, H5; reflexivity | ].
  rewrite E.
  destruct (matched (rmatch RE_PAREN_EMPTY (_clean s)));
    [ split; [ simpl; tauto | discriminate ] | ].
  destruct (matched (rmatch RE_PAREN_NAME (_clean s)));
    [ split; [ simpl; tauto | discriminate ] | ].
  destruct (matched (search RE_BRACKETS (_clean s)));
    split; solve [ simpl; tauto | discriminate ].
Qed.

Lemma bare_address_categories_witness :
  category (Some (lit "someone@example.com")) = "mail_only"%string
  /\ category (Some (lit "someone@example.com")) <> "mail_fake_domain"%string
  /\ category (Some (lit "a@b.c()")) = "mail_empty_parentheses"%string
  /\ category (Some (lit "a@b.c(x)")) = "mail_parentheses_lastname"%string
  /\ category (Some (lit "a@[1.2.3.4]")) = "mail_with_brackets"%string.
Proof.
  destruct (bare_address_categories (Some (lit "someone@example.com")))
    as (_ & Only & _ & Hn); [ vm_compute; reflexivity | ].
  split; [ apply Only; vm_compute; reflexivity | ].
  split; [ exact Hn | ].
  destruct (bare_address_categories (Some (lit "a@b.c()")))
    as (E1 & _); [ vm_compute; reflexivity | ].
  destruct (bare_address_categories (Some (lit "a@b.c(x)")))
    as (E2 & _); [ vm_compute; reflexivity | ].
  destruct (bare_address_categories (Some (lit "a@[1.2.3.4]")))
    as (E3 & _); [ vm_compute; reflexivity | ].
  split; [ rewrite E1; vm_compute; reflexivity | ].
  split; [ rewrite E2; vm_compute; reflexivity | ].
  rewrite E3. vm_compute. reflexivity.
Defined.

End CategoryShapes.

Section AngleCategories.

Lemma spaced_ok_last (u : str) (x : char) :
  spaced_ok (u ++ [x]) = true -> isspace x = false.
Proof.
  induction u as [ | y u IH ]; simpl; intros H.
  - destruct (isspace x); [ | reflexivity ].
    rewrite andb_false_r in H. discriminate H.
  - apply andb_true_iff in H. apply IH, H.
Qed.

Lemma clean_spaced_ok (s : option str) : spaced_ok (_clean s) = true.
Proof.
  destruct s as [ u | ]; [ | reflexivity ].
  rewrite clean_norm. apply norm_spaced_ok.
Qed.

Lemma clean_no_tail (s : option str) (u tail : str) (x : char) :
  _clean s = u ++ x :: tail -> forallb isspace tail = true -> tail = [].
Proof.
  intros E Ht. destruct tail as [ | y tail' ]; [ reflexivity | exfalso ].
  destruct (exists_last (l := y :: tail')) as (w & z & Ew); [ discriminate | ].
  rewrite Ew in E, Ht.
  assert (Hz : isspace z = true).
  { rewrite forallb_app in Ht. apply andb_true_iff in Ht.
    destruct Ht as [_ Ht]. simpl in Ht. rewrite andb_true_r in Ht. exact Ht. }
  pose proof (clean_spaced_ok s) as Hs. rewrite E in Hs.
  replace (u ++ x :: w ++ [z]) with ((u ++ x :: w) ++ [z]) in Hs
    by (rewrite <- app_assoc; reflexivity).
  apply spaced_ok_last in Hs. congruence.
Qed.

Lemma endswith_snoc (a : char) (u : str) : endswith a (u ++ [a]) = true.
Proof.
  unfold endswith. rewrite rev_app_distr. simpl. apply N.eqb_refl.
Qed.

Lemma angle_found_shape (s : option str) (disp angle : str) :
  _split_display_angle (_clean s) = (disp, angle) ->
  nonempty angle = true ->
  contains (chr "@") (_clean s) = true
  /\ endswith (chr ">") (_clean s) = true
  /\ located_email (_clean s) = angle.
Proof.
  intros Hsp Hang.
  destruct (split_display_angle_cases (_clean s))
    as [[_ E] | (d & body & tail & E & Ht & _ & Hat & Es & _)].
  - rewrite E in Hsp. injection Hsp as _ <-. discriminate Hang.
  - assert (Etail : tail = []).
    { apply (clean_no_tail s (d ++ chr "<" :: body) tail (chr ">"));
        [ | exact Ht ].
      rewrite E, <- app_assoc. reflexivity. }
    subst tail. rewrite E. repeat split.
    + rewrite contains_app, contains_cons, contains_app, Hat.
      rewrite !orb_true_r. reflexivity.
    + replace (d ++ chr "<" :: body ++ [chr ">"])
        with ((d ++ chr "<" :: body) ++ [chr ">"])
        by (rewrite <- app_assoc; reflexivity).
      apply endswith_snoc.
    + rewrite <- E. unfold located_email. rewrite Hsp, Hang. reflexivity.
Qed.

(** X11. A sender in one of the five angle categories holds exactly one
    at-sign, its cleaned text ends with [>], and an address is located for
    its features. *)
Theorem angle_category_shape (s : option str) :
  In (category s) ANGLE_CATEGORIES ->
  count (chr "@") (_clean s) = 1
  /\ endswith (chr ">") (_clean s) = true
  /\ located_email (_clean s) <> [].
Proof.
  unfold category, classify. intros H.
  destruct (Nat.ltb 1 (count (chr "@") (_clean s))) eqn:Hcnt;
    destruct (_split_display_angle (_clean s)) as [disp angle] eqn:Hsp;
    destruct (nonempty angle) eqn:Hang;
    try (exfalso; revert H;
         repeat match goal with
                | |- context [if ?b then _ else _] => destruct b
                end; cbn [fst]; simpl; intuition discriminate).
  clear H. destruct (angle_found_shape s disp angle Hsp Hang) as (Hat & He & Hl).
  split; [ | split; [ exact He | ] ].
  - rewrite contains_count in Hat.
    apply Nat.ltb_lt in Hat. apply Nat.ltb_ge in Hcnt. lia.
  - rewrite Hl. destruct angle; [ discriminate Hang | discriminate ].
Qed.

Lemma angle_category_shape_witness :
  count (chr "@") (_clean (Some (lit "John Smith <john.smith@gmail.com>"))) = 1
  /\ endswith (chr ">")
       (_clean (Some (lit "John Smith <john.smith@gmail.com>"))) = true
  /\ located_email (_clean (Some (lit "John Smith <john.smith@gmail.com>")))
     <> [].
Proof.
  apply (angle_category_shape (Some (lit "John Smith <john.smith@gmail.com>"))).
  vm_compute. tauto.
Defined.

Lemma lastname_comma_only_unbalanced_witness :
  startswith dquote
    (_clean (Some (lit "Smith, John" ++ dquote :: lit " <jsmith@corp.com>")))
  = false
  /\ contains dquote
       (_clean (Some (lit "Smith, John" ++ dquote :: lit " <jsmith@corp.com>")))
     = true.
Proof.
  apply (lastname_comma_only_unbalanced
           (Some (lit "Smith, John" ++ dquote :: lit " <jsmith@corp.com>"))).
  vm_compute. reflexivity.
Defined.

End AngleCategories.

(** ** The counts behind the entropy *)

Section EntropyCounts.

(** X13. For a non-empty string the entropy expression is built from the
    occurrence counts of its distinct characters, each taken once: every
    count is at least 1 and at most the length, and the counts add up to
    the length, so no frequency is zero and the length divided by is not
    zero. *)
Theorem shannon_counts (s : str) :
  s <> [] ->
  _shannon_entropy s
  = NegSumPLog2 (map (fun a => count a s) (map fst (Counter s)))
      (List.length s)
  /\ NoDup (map fst (Counter s))
  /\ (forall a, In a (map fst (Counter s)) <-> In a s)
  /\ Forall (fun n => 1 <= n <= List.length s)
       (map (fun a => count a s) (map fst (Counter s)))
  /\ list_sum (map (fun a => count a s) (map fst (Counter s)))
     = List.length s
  /\ 1 <= List.length s.
Proof.
  intros Hne.
  destruct (Counter_spec s) as (Hn & Hp & Hs & Hk & Hc).
  assert (E : map snd (Counter s)
              = map (fun a => count a s) (map fst (Counter s))).
  { rewrite map_map. apply map_ext_in. intros p Hp'. apply Hc. exact Hp'. }
  rewrite <- E. repeat split; auto.
  - unfold _shannon_entropy. destruct s; [ congruence | reflexivity ].
  - apply Hk.
  - apply Hk.
  - apply Forall_forall. intros n Hin. split.
    + revert n Hin. apply Forall_forall. exact Hp.
    + rewrite <- Hs. apply in_le_sum. exact Hin.
  - destruct s; [ congruence | simpl; lia ].
Qed.

Lemma shannon_counts_witness :
  _shannon_entropy (lit "hello")
  = NegSumPLog2
      (map (fun a => count a (lit "hello")) (map fst (Counter (lit "hello"))))
      (List.length (lit "hello"))
  /\ map (fun a => count a (lit "hello")) (map fst (Counter (lit "hello")))
     = [1; 1; 2; 1].
Proof.
  split; [ | reflexivity ].
  apply (shannon_counts (lit "hello")). discriminate.
Defined.

End EntropyCounts.

(** ** The result, row by row *)

Section BatchRows.

Lemma record_get_flags (k : string) (d : flags) :
  record_get k (flags_record d)
  = match getitem k d with Some v => Int v | None => Null end.
Proof.
  induction d as [ | [k' v] d IH ]; [ reflexivity | ].
  simpl. destruct (String.eqb k' k); [ reflexivity | exact IH ].
Qed.

Lemma flag_of_pair (cat flag : string) :
  In (cat, flag) CATEGORY_FLAG -> flag_of cat = flag.
Proof.
  intros H. simpl in H.
  repeat (destruct H as [H | H]; [ injection H as <- <-; reflexivity | ]).
  contradiction.
Qed.

Lemma classify_flag_value (s : option str) (k : string) :
  In k FLAG_NAMES ->
  getitem k (snd (classify s))
  = Some (if String.eqb k (flag_of (category s)) then 1 else 0)%Z.
Proof.
  intros Hk. destruct (classify_one_hot s) as (_ & _ & _ & flag & Hin & Hv).
  unfold category. rewrite (flag_of_pair _ _ Hin). apply Hv. exact Hk.
Qed.

Lemma senders_of_length (col : list cell) :
  forall senders, senders_of col = Some senders ->
                  List.length senders = List.length col.
Proof.
  induction col as [ | x col IH ]; intros senders H; simpl in H.
  - injection H as <-. reflexivity.
  - destruct (sender_of x); [ | discriminate H ].
    destruct (senders_of col) as [ l | ]; [ | discriminate H ].
    injection H as <-. simpl. rewrite (IH l eq_refl). reflexivity.
Qed.

Lemma fmt_df_cells (senders : list (option str)) :
  senders <> [] ->
  fmt_df senders
  = map (fun k =>
           (k, map (fun s =>
                      Int (if String.eqb k (flag_of (category s))
                           then 1 else 0)) senders))
      FLAG_NAMES.
Proof.
  intros Hne. unfold fmt_df, DataFrame.
  rewrite <- DataFrame_columns.
  change (DataFrame (map (fun s => flags_record (snd (classify s))) senders))
    with (fmt_df senders).
  rewrite (fmt_df_columns senders Hne).
  apply map_ext_in. intros k Hk. f_equal.
  rewrite map_map. apply map_ext. intros s.
  rewrite record_get_flags, (classify_flag_value s k Hk). reflexivity.
Qed.

Lemma enrich_df_cells (db : unicode_db) (senders : list (option str)) :
  senders <> [] ->
  enrich_df db senders
  = map (fun k => (k, map (fun s => record_get k (features db s)) senders))
      FEATURE_NAMES.
Proof.
  intros Hne. unfold enrich_df, DataFrame.
  rewrite <- DataFrame_columns.
  change (DataFrame (map (features db) senders)) with (enrich_df db senders).
  rewrite (enrich_df_columns db senders Hne).
  apply map_ext. intros k. f_equal. apply map_map.
Qed.

Lemma label_eqb_refl (a : label) : label_eqb a a = true.
Proof.
  destruct a as [ i | u ]; simpl; [ apply Z.eqb_refl | ].
  induction u as [ | x u IH ]; [ reflexivity | ].
  simpl. unfold char_eqb. rewrite N.eqb_refl. exact IH.
Qed.

Lemma index_eqb_refl (a : list label) : index_eqb a a = true.
Proof.
  induction a as [ | x a IH ]; [ reflexivity | ].
  simpl. rewrite label_eqb_refl. exact IH.
Qed.

Lemma RangeIndex_length (n : nat) : List.length (RangeIndex n) = n.
Proof. unfold RangeIndex. rewrite length_map. apply length_seq. Qed.

Lemma column_set_other (n m : string) (c : list cell) (df : frame) :
  String.eqb m n = false -> column n (set_column m c df) = column n df.
Proof.
  intros Hnm. induction df as [ | [k col'] df IH ]; simpl.
  - rewrite Hnm. reflexivity.
  - destruct (String.eqb k m) eqn:Ekm; simpl.
    + apply String.eqb_eq in Ekm. subst k. rewrite Hnm. reflexivity.
    + destruct (String.eqb k n); [ reflexivity | exact IH ].
Qed.

Lemma column_app (n : string) (a b : frame) (c : list cell) :
  column n a = Some c -> column n (a ++ b) = Some c.
Proof.
  induction a as [ | [k col'] a IH ]; simpl; [ discriminate | ].
  destruct (String.eqb k n); [ auto | exact IH ].
Qed.

(** Over the default index the rows need no join: the result is the one
    computed on the columns alone. *)
Lemma default_index_result
  (pd : pandas) (db : unicode_db) (df : table) (col : list cell) :
  index df = RangeIndex (List.length col) ->
  column "sender" (columns df) = Some col ->
  build_sender_features_indexed pd db df
  = option_map (Table (index df)) (build_sender_features db (columns df)).
Proof.
  intros Hi Hc. unfold build_sender_features_indexed, build_sender_features.
  rewrite Hc. destruct (senders_of col) as [ senders | ] eqn:Hs;
    [ | reflexivity ].
  assert (Hl : List.length senders = List.length col)
    by (apply senders_of_length; exact Hs).
  rewrite length_map, Hi, RangeIndex_length, Hl, Nat.eqb_refl.
  cbn [negb]. unfold concat. cbn [index columns].
  rewrite index_eqb_refl. cbn [index columns].
  rewrite (column_app _ _ _ col)
    by (rewrite column_set_other by reflexivity; exact Hc).
  rewrite Hs, Hl, index_eqb_refl. reflexivity.
Qed.

(** X14. On a table over the default index (the labels 0 to n-1 for its n
    rows) with at least one row, the result keeps that index and is the
    table with its sender_category column set to the categories of the
    rows, then the 15 flag columns, then the 10 feature columns; each of
    these columns has one cell per row, in the order of the rows: the
    category of that row's sender, 1 or 0 according to whether the flag is
    the one of that category, and the feature of that row's sender.  No
    join of rows takes place, whatever the library does for other
    indexes. *)
Theorem batch_rows
  (pd : pandas) (db : unicode_db) (df : table)
  (col : list cell) (senders : list (option str)) :
  index df = RangeIndex (List.length col) ->
  column "sender" (columns df) = Some col ->
  senders_of col = Some senders ->
  senders <> [] ->
  build_sender_features_indexed pd db df
  = Some
      (Table (index df)
         (set_column "sender_category"
            (map (fun s => Text (lit (category s))) senders) (columns df)
          ++ map (fun k =>
                    (k, map (fun s =>
                               Int (if String.eqb k (flag_of (category s))
                                    then 1 else 0)) senders))
               FLAG_NAMES
          ++ map (fun k =>
                    (k, map (fun s => record_get k (features db s)) senders))
               FEATURE_NAMES))
  /\ List.length senders = List.length col
  /\ List.length (index df) = List.length col.
Proof.
  intros Hi Hc Hs Hne.
  split; [ | split; [ apply senders_of_length; exact Hs
                    | rewrite Hi; apply RangeIndex_length ] ].
  rewrite (default_index_result pd db df col Hi Hc).
  unfold build_sender_features, concat_columns. rewrite Hc, Hs.
  rewrite (fmt_df_cells senders Hne), (enrich_df_cells db senders Hne).
  cbn [option_map]. rewrite <- app_assoc. reflexivity.
Qed.

Lemma batch_rows_witness :
  build_sender_features_indexed no_join ascii_db
    (Table [At 0%Z; At 1%Z]
       [("id"%string, [Int 7; Int 8]);
        ("sender"%string, [Text (lit "alice@example.org"); Null])])
  = Some
      (Table [At 0%Z; At 1%Z]
         (set_column "sender_category"
            (map (fun s => Text (lit (category s)))
               [Some (lit "alice@example.org"); None])
            [("id"%string, [Int 7; Int 8]);
             ("sender"%string, [Text (lit "alice@example.org"); Null])]
          ++ map (fun k =>
                    (k, map (fun s =>
                               Int (if String.eqb k (flag_of (category s))
                                    then 1 else 0))
                          [Some (lit "alice@example.org"); None]))
               FLAG_NAMES
          ++ map (fun k =>
                    (k, map (fun s => record_get k (features ascii_db s))
                          [Some (lit "alice@example.org"); None]))
               FEATURE_NAMES))
  /\ List.length [Some (lit "alice@example.org"); None]
     = List.length [Text (lit "alice@example.org"); Null]
  /\ List.length [At 0%Z; At 1%Z]
     = List.length [Text (lit "alice@example.org"); Null].
Proof.
  apply (batch_rows no_join ascii_db
           (Table [At 0%Z; At 1%Z]
              [("id"%string, [Int 7; Int 8]);
               ("sender"%string, [Text (lit "alice@example.org"); Null])])
           [Text (lit "alice@example.org"); Null]
           [Some (lit "alice@example.org"); None]).
  - reflexivity.
  - reflexivity.
  - reflexivity.
  - discriminate.
Defined.

(** X15. A table whose sender column has no row gets no flag column and no
    feature column: the result is the table itself with an empty
    sender_category column (added at the end, or emptied in place when the
    table already had one). *)
Theorem batch_without_rows (db : unicode_db) (df : frame) :
  column "sender" df = Some [] ->
  build_sender_features db df = Some (set_column "sender_category" [] df).
Proof.
  intros Hc. unfold build_sender_features, concat_columns. rewrite Hc.
  simpl. rewrite !app_nil_r. reflexivity.
Qed.

Lemma batch_without_rows_witness :
  build_sender_features ascii_db [("sender"%string, []); ("id"%string, [])]
  = Some [("sender"%string, []); ("id"%string, []);
          ("sender_category"%string, [])].
Proof.
  apply (batch_without_rows ascii_db
           [("sender"%string, []); ("id"%string, [])]).
  reflexivity.
Defined.

End BatchRows.

(** ** The mail content *)

Section MailContent.
Import Re.

Lemma match_at_one (k : cls) (i : nat) (s : str) :
  match_at (One k) i s
  = match s with
    | x :: _ => if cls_has k x then Some (Match i 1 []) else None
    | [] => None
    end.
Proof.
  unfold match_at. cbn [exec rest pos groups].
  destruct s as [ | x t ]; [ reflexivity | ].
  destruct (cls_has k x); [ | reflexivity ].
  cbn [pos groups]. replace (S i - i) with 1 by lia. reflexivity.
Qed.

(** Substituting nothing for a single character set deletes its
    characters. *)
Lemma sub_delete (k : cls) (s : str) :
  forall i, sub_from (One k) [] i 0 s
            = filter (fun x => negb (cls_has k x)) s.
Proof.
  induction s as [ | x t IH ]; intros i.
  - cbn [sub_from]. rewrite match_at_one. reflexivity.
  - cbn [sub_from filter]. rewrite match_at_one.
    destruct (cls_has k x); cbn [m_len negb app]; rewrite IH; reflexivity.
Qed.

Lemma split_from_spec (s : str) :
  forall cur,
    forallb (fun x => negb (isspace x)) cur = true ->
    Forall (fun w => w <> []
                     /\ forallb (fun x => negb (isspace x)) w = true
                     /\ forall x, In x w -> In x cur \/ In x s)
      (split_from cur s).
Proof.
  induction s as [ | x t IH ]; intros cur Hcur.
  - cbn [split_from]. destruct cur as [ | y cur' ]; constructor; [ | constructor ].
    split; [ | split ].
    + intros E. apply (f_equal (@List.length char)) in E.
      rewrite length_rev in E. discriminate E.
    + apply forallb_forall. intros z Hz. apply in_rev in Hz.
      revert z Hz. apply forallb_forall. exact Hcur.
    + intros z Hz. left. apply in_rev. exact Hz.
  - cbn [split_from]. destruct (isspace x) eqn:Hx.
    + assert (Ht : Forall (fun w => w <> []
                     /\ forallb (fun x => negb (isspace x)) w = true
                     /\ forall z, In z w -> In z cur \/ In z (x :: t))
                     (split_from [] t)).
      { eapply Forall_impl; [ | apply (IH [] eq_refl) ].
        intros w (H1 & H2 & H3). repeat split; auto.
        intros z Hz. destruct (H3 z Hz) as [[] | H]. right. right. exact H. }
      destruct cur as [ | y cur' ]; [ exact Ht | ].
      constructor; [ | exact Ht ].
      split; [ | split ].
      * intros E. apply (f_equal (@List.length char)) in E.
        rewrite length_rev in E. discriminate E.
      * apply forallb_forall. intros z Hz. apply in_rev in Hz.
        revert z Hz. apply forallb_forall. exact Hcur.
      * intros z Hz. left. apply in_rev. exact Hz.
    + eapply Forall_impl; [ | apply (IH (x :: cur)) ].
      * intros w (H1 & H2 & H3). repeat split; auto.
        intros z Hz. destruct (H3 z Hz) as [[<- | H] | H]; auto.
        -- right. left. reflexivity.
        -- right. right. exact H.
      * cbn [forallb]. rewrite Hx, Hcur. reflexivity.
Qed.

Lemma str_eqb_eq (a b : str) : str_eqb a b = true <-> a = b.
Proof.
  revert b. induction a as [ | x a IH ]; intros [ | y b ]; simpl;
    try (split; [ reflexivity || discriminate | reflexivity || discriminate ]).
  rewrite andb_true_iff, IH. unfold char_eqb. rewrite N.eqb_eq.
  split; [ intros [-> ->]; reflexivity | intros E; injection E; auto ].
Qed.

(** X16. Every token handed to the lemmatizer is non-empty, is made of
    word characters only, and is not a stop word; the result is the
    lemmatized tokens joined by single spaces. *)
Theorem tokens_are_words (db : unicode_db) (tt : text_tools)
  (text : option str) :
  Forall (fun w => w <> []
                   /\ forallb (is_word tt) w = true
                   /\ ~ In w (stop_words tt))
    (content_tokens db tt text)
  /\ preprocess_mail_content db tt text
     = join (lit " ") (map (lemmatize tt) (content_tokens db tt text)).
Proof.
  split; [ | reflexivity ].
  unfold content_tokens, sub at 1, RE_PUNCT. rewrite sub_delete.
  set (txt := lower db _).
  apply Forall_forall. intros w Hw. apply filter_In in Hw.
  destruct Hw as [Hw Hstop].
  pose proof (split_from_spec
                (filter (fun x => negb (cls_has
                   (Where (fun x0 => negb (is_word tt x0 || isspace x0))) x))
                   txt) [] eq_refl) as Hsp.
  rewrite Forall_forall in Hsp. destruct (Hsp w Hw) as (H1 & H2 & H3).
  split; [ exact H1 | split ].
  - apply forallb_forall. intros x Hx.
    rewrite forallb_forall in H2. specialize (H2 x Hx).
    destruct (H3 x Hx) as [[] | Hin]. apply filter_In in Hin.
    destruct Hin as [_ Hk]. cbn [cls_has] in Hk.
    rewrite negb_involutive in Hk. apply negb_true_iff in H2.
    rewrite H2, orb_false_r in Hk. exact Hk.
  - intros Hin. apply negb_true_iff in Hstop.
    assert (Ht : existsb (str_eqb w) (stop_words tt) = true).
    { apply existsb_exists. exists w. split; [ exact Hin | ].
      apply str_eqb_eq. reflexivity. }
    congruence.
Qed.

Lemma sub_from_ext (r1 r2 : regex) (repl : str) :
  (forall i s, match_at r1 i s = match_at r2 i s) ->
  forall s i k, sub_from r1 repl i k s = sub_from r2 repl i k s.
Proof.
  intros H. induction s as [ | x t IH ]; intros i k.
  - destruct k; cbn [sub_from]; [ rewrite H | ]; reflexivity.
  - destruct k as [ | k ]; cbn [sub_from]; [ | apply IH ].
    rewrite H. destruct (match_at r2 i (x :: t)) as [ m | ].
    + destruct (m_len m); rewrite IH; reflexivity.
    + rewrite IH. reflexivity.
Qed.

Lemma not_space_s : cls_has NOT_SPACE (chr "s") = true.
Proof. reflexivity. Qed.

(** Where [https\S+] matches, [http\S+] matches too. *)
Lemma https_is_http (st : mstate) :
  exec (Cat (word "http") (plus NOT_SPACE)) st = [] ->
  exec (Cat (word "https") (plus NOT_SPACE)) st = [].
Proof.
  intros Ha.
  destruct (exec (Cat (word "https") (plus NOT_SPACE)) st) as [ | st' l ] eqn:Hc;
    [ reflexivity | exfalso ].
  destruct (exec_sound (Cat (word "https") (plus NOT_SPACE)) st st')
    as (w & E & _ & D); [ rewrite Hc; left; reflexivity | ].
  unfold word, plus in D. cbn [lit list_ascii_of_string map seq den] in D.
  destruct D as (w1 & w2 & -> & D1 & L2 & A2).
  destruct D1 as (h & r1 & -> & (xh & -> & Eh) & D1).
  destruct D1 as (t1 & r2 & -> & (xt1 & -> & Et1) & D1).
  destruct D1 as (t2 & r3 & -> & (xt2 & -> & Et2) & D1).
  destruct D1 as (p1 & r4 & -> & (xp & -> & Ep) & (xs & -> & Es)).
  apply lit_has in Es. subst xs.
  assert (Dn : den (Cat (word "http") (plus NOT_SPACE)) (pos st)
                 ([xh; xt1; xt2; xp] ++ N_of_ascii "s" :: w2) (rest st')).
  { unfold word, plus. cbn [lit list_ascii_of_string map seq den].
    exists [xh; xt1; xt2; xp], (N_of_ascii "s" :: w2).
    split; [ reflexivity | ]. split.
    - exists [xh], [xt1; xt2; xp]. split; [ reflexivity | ].
      split; [ exists xh; auto | ].
      exists [xt1], [xt2; xp]. split; [ reflexivity | ].
      split; [ exists xt1; auto | ].
      exists [xt2], [xp]. split; [ reflexivity | ].
      split; [ exists xt2; auto | exists xp; auto ].
    - split; [ simpl; lia | ].
      cbn [forallb]. rewrite A2.
      change (cls_has NOT_SPACE (N_of_ascii "s")) with true. reflexivity. }
  destruct (exec_complete _ st _ _ Dn) as (st2 & Hin & _).
  { rewrite E. simpl. reflexivity. }
  rewrite Ha in Hin. destruct Hin.
Qed.

Lemma url_match_at (i : nat) (s : str) :
  match_at RE_URL i s = match_at RE_URL_SHORT i s.
Proof.
  unfold match_at, RE_URL, RE_URL_SHORT.
  change (exec (Alt (Cat (word "http") (plus NOT_SPACE))
                  (Alt (Cat (word "www") (plus NOT_SPACE))
                     (Cat (word "https") (plus NOT_SPACE))))
            (MState i s []))
    with (exec (Cat (word "http") (plus NOT_SPACE)) (MState i s [])
          ++ exec (Cat (word "www") (plus NOT_SPACE)) (MState i s [])
          ++ exec (Cat (word "https") (plus NOT_SPACE)) (MState i s [])).
  change (exec (Alt (Cat (word "http") (plus NOT_SPACE))
                  (Cat (word "www") (plus NOT_SPACE)))
            (MState i s []))
    with (exec (Cat (word "http") (plus NOT_SPACE)) (MState i s [])
          ++ exec (Cat (word "www") (plus NOT_SPACE)) (MState i s [])).
  destruct (exec (Cat (word "http") (plus NOT_SPACE)) (MState i s []))
    as [ | a l ] eqn:Ha.
  - rewrite (https_is_http _ Ha), app_nil_r. reflexivity.
  - reflexivity.
Qed.

(** X17. In the pattern for URLs the alternative [https\S+] never decides
    anything: whatever the text and the replacement, the substitution is
    the one the pattern [http\S+|www\S+] makes. *)
Theorem url_https_redundant (repl text : str) :
  Re.sub RE_URL repl text = Re.sub RE_URL_SHORT repl text.
Proof.
  unfold sub. apply sub_from_ext. exact url_match_at.
Qed.

End MailContent.
